(** * Strudel LSP server: a shallow embedding of [server/src/server.ts]

    The server is a single-threaded, event-driven program: a handful of
    module-level variables (three capability flags, the global settings, the
    per-document settings cache) and one handler per protocol message.  The
    embedding keeps that shape: a [Server] record for the module-level state,
    one function per handler, and a trace semantics that feeds protocol
    events to the handlers one at a time.

    JavaScript strings are sequences of UTF-16 code units; they are modelled
    as [list N].  Numbers that the code only counts with ([errors],
    [maxErrorCount], offsets) are modelled as integers. *)

From Stdlib Require Import ZArith NArith Bool Ascii String.
From stdpp Require Import gmap strings list sorting.

Set Default Proof Using "Type".

(** ** JavaScript strings *)

Abbreviation jsstring := (list N).

(** The code units of an ASCII literal of the source. *)
Fixpoint js (s : string) : jsstring :=
  match s with
  | EmptyString => []
  | String a s' => N_of_ascii a :: js s'
  end.

Arguments js : simpl never.

(** [String.prototype.substring] for [from <= to] (the only use here is the
    text of a match, [m[0]]). *)
Definition substring (text : jsstring) (from to : nat) : jsstring :=
  take (to - from) (drop from text).

(** ** The pattern [/\b[A-Z]{2,}\b/g]

    The pattern has no [u] and no [i] flag, so a word character is one of
    [A-Za-z0-9_] and [[A-Z]] is the code-unit range 65..90. *)

Definition isUpper (c : N) : bool := ((65 <=? c) && (c <=? 90))%N.

Definition isWordChar (c : N) : bool :=
  (isUpper c
   || ((97 <=? c) && (c <=? 122))
   || ((48 <=? c) && (c <=? 57))
   || (c =? 95))%N.

(** [IsWordChar(e)] of the regular-expression semantics: false outside the
    input. *)
Definition isWordCharAt (text : jsstring) (e : nat) : bool :=
  match text !! e with
  | Some c => isWordChar c
  | None => false
  end.

(** [IsWordChar(e - 1)]; position [-1] is outside the input. *)
Definition isWordCharBefore (text : jsstring) (e : nat) : bool :=
  match e with
  | 0 => false
  | S p => isWordCharAt text p
  end.

(** The assertion [\b] at position [e]. *)
Definition wordBoundary (text : jsstring) (e : nat) : bool :=
  xorb (isWordCharBefore text e) (isWordCharAt text e).

(** The greedy quantifier first consumes the longest run of [[A-Z]]. *)
Fixpoint upperRun (s : jsstring) : nat :=
  match s with
  | c :: s' => if isUpper c then S (upperRun s') else 0
  | [] => 0
  end.

(** Backtracking of [[A-Z]{2,}] followed by [\b]: with [k] letters consumed
    from position [i], try the closing assertion, and give one letter back
    on failure, down to the minimum of two. *)
Fixpoint backtrack (text : jsstring) (i k : nat) : option nat :=
  if k <? 2 then None
  else if wordBoundary text (i + k) then Some (i + k)
  else match k with
       | S k' => backtrack text i k'
       | 0 => None
       end.

(** One attempt of the whole pattern at position [i]; the result is the end
    index of the match. *)
Definition matchAt (text : jsstring) (i : nat) : option nat :=
  if wordBoundary text i
  then backtrack text i (upperRun (drop i text))
  else None.

(** The search loop of [RegExpBuiltinExec]: [n] candidate start positions
    from [i] on, the first that matches wins. *)
Fixpoint scan (n : nat) (text : jsstring) (i : nat) : option (nat * nat) :=
  match n with
  | 0 => None
  | S n' =>
      match matchAt text i with
      | Some e => Some (i, e)
      | None => scan n' text (S i)
      end
  end.

(** The two parts of the match array that the validator reads:
    [m.index] and [m[0]]. *)
Record RegExpExecArray := {
  index : nat;
  matched : jsstring
}.

(** [pattern.exec(text)] for the global pattern, with the pattern's
    [lastIndex] threaded explicitly: the result is the match (or [None] for
    [null]) and the new [lastIndex]. *)
Definition exec (text : jsstring) (lastIndex : nat)
  : option RegExpExecArray * nat :=
  if length text <? lastIndex then (None, 0)
  else match scan (S (length text - lastIndex)) text lastIndex with
       | Some (i, e) =>
           (Some {| index := i; matched := substring text i e |}, e)
       | None => (None, 0)
       end.

(** ** Text documents *)

Record Position := {
  line : nat;
  character : nat
}.

Record Range := {
  start : Position;
  end_ : Position
}.

Record TextDocument := {
  uri : jsstring;
  version : Z;
  getText : jsstring
}.

Definition CR : N := 13.
Definition LF : N := 10.

Definition isEOL (c : N) : bool := ((c =? CR) || (c =? LF))%N.

(** Modelled from the spec: the document's offset table.  [TextDocument]
    comes from the package [vscode-languageserver-textdocument], which is
    not among the sources; the table holds the offset of the first
    character of every line, a line ending with CR LF, CR or LF.  [i] is
    the offset of the head of [s]. *)
Fixpoint lineOffsetsFrom (i : nat) (s : jsstring) : list nat :=
  match s with
  | [] => []
  | c :: s' =>
      if (c =? CR)%N then
        match s' with
        | c' :: s'' =>
            if (c' =? LF)%N
            then (i + 2) :: lineOffsetsFrom (i + 2) s''
            else (i + 1) :: lineOffsetsFrom (i + 1) s'
        | [] => [i + 1]
        end
      else if (c =? LF)%N then (i + 1) :: lineOffsetsFrom (i + 1) s'
      else lineOffsetsFrom (i + 1) s'
  end.

Definition getLineOffsets (doc : TextDocument) : list nat :=
  0 :: lineOffsetsFrom 0 (getText doc).

(** Modelled from the spec: an offset is never reported inside or after the
    line terminator of its line; it is moved back to the end of the line's
    text. *)
Fixpoint ensureBeforeEOL (text : jsstring) (offset lineOffset : nat) : nat :=
  match offset with
  | S p =>
      if (lineOffset <? offset)
         && match text !! p with Some c => isEOL c | None => false end
      then ensureBeforeEOL text p lineOffset
      else offset
  | 0 => 0
  end.

(** Modelled from the spec: character offset to line and column.  The
    offset is clamped to the text; the line is the last one that starts at
    or before the offset (the table is increasing, so that is the number of
    entries not above the offset, minus one). *)
Definition positionAt (doc : TextDocument) (offset : nat) : Position :=
  let offset := offset `min` length (getText doc) in
  let lineOffsets := getLineOffsets doc in
  let low := length (List.filter (fun o => o <=? offset) lineOffsets) in
  let line := low - 1 in
  let lineOffset := lineOffsets !!! line in
  let offset := ensureBeforeEOL (getText doc) offset lineOffset in
  {| line := line; character := offset - lineOffset |}.

(** Modelled from the spec: line and column back to a character offset,
    through the same table. *)
Definition offsetAt (doc : TextDocument) (position : Position) : nat :=
  let lineOffsets := getLineOffsets doc in
  if length lineOffsets <=? line position then length (getText doc)
  else
    let lineOffset := lineOffsets !!! line position in
    if character position =? 0 then lineOffset
    else
      let nextLineOffset :=
        if line position + 1 <? length lineOffsets
        then lineOffsets !!! (line position + 1)
        else length (getText doc) in
      let offset := (lineOffset + character position) `min` nextLineOffset in
      ensureBeforeEOL (getText doc) offset lineOffset.

(** ** Diagnostics *)

(** The server imports [DiagnosticSeverity] from the editor API (['vscode'],
    line 32) and every other protocol type from the protocol library
    (['vscode-languageserver/node']).  Neither package is among the sources;
    these are the numbers of their two severity enumerations: the protocol
    counts severities from 1, the editor API from 0.  A [Diagnostic] travels
    to the peer as the number stored in its [severity] field, and the peer
    reads it with the protocol's numbering. *)
Module lsp.
Module DiagnosticSeverity.
Definition Error : Z := 1.
Definition Warning : Z := 2.
Definition Information : Z := 3.
Definition Hint : Z := 4.
End DiagnosticSeverity.
End lsp.

Module vscode.
Module DiagnosticSeverity.
Definition Error : Z := 0.
Definition Warning : Z := 1.
Definition Information : Z := 2.
Definition Hint : Z := 3.
End DiagnosticSeverity.
End vscode.

Record Location := {
  loc_uri : jsstring;
  loc_range : Range
}.

Record DiagnosticRelatedInformation := {
  location : Location;
  info_message : jsstring
}.

Record Diagnostic := {
  severity : Z;
  range : Range;
  message : jsstring;
  source : jsstring;
  relatedInformation : option (list DiagnosticRelatedInformation)
}.

(** ** Settings *)

(** [StrudelSettings] at its declared type, with [maxErrorCount] an
    integral number.  Values that TypeScript does not check at run time (a
    fractional or missing [maxErrorCount]) are outside this type. *)
Record StrudelSettings := {
  maxErrorCount : Z
}.

Definition defaultSettings : StrudelSettings := {| maxErrorCount := 100 |}.

(** ** JSON values received from the peer

    Fields that the handlers read defensively ([capabilities], the [data]
    of a completion item) are typed loosely on the TypeScript side, so they
    are modelled as untyped values.  Numbers are the integral ones; an
    array is an object whose keys are its indices. *)

#[warnings="-register-all"]
Inductive JsValue :=
| JUndefined
| JNull
| JBool (b : bool)
| JNumber (z : Z)
| JString (str : jsstring)
| JObject (fields : list (string * JsValue)).

(** [ToBoolean]. *)
Definition truthy (v : JsValue) : bool :=
  match v with
  | JUndefined | JNull => false
  | JBool b => b
  | JNumber z => negb (z =? 0)%Z
  | JString str => negb (length str =? 0)
  | JObject _ => true
  end.

Fixpoint lookupField (name : string) (fields : list (string * JsValue))
  : JsValue :=
  match fields with
  | [] => JUndefined
  | (k, v) :: rest => if String.eqb k name then v else lookupField name rest
  end.

(** Property read [v.name], for the property names the server reads (none
    of them is defined on the prototypes of the primitive types).  [None]
    stands for the [TypeError] of reading a property of [undefined] or
    [null]. *)
Definition getProp (v : JsValue) (name : string) : option JsValue :=
  match v with
  | JUndefined | JNull => None
  | JObject fields => Some (lookupField name fields)
  | JBool _ | JNumber _ | JString _ => Some JUndefined
  end.

(** ** Session state *)

(** The handle of a settings lookup.  [Promise.resolve(v)] is settled from
    the start; the promise returned by [conn.workspace.getConfiguration] is
    identified by the sequence number of the request it waits for.  A
    [PromiseResolve] handle records the value only: the identity of the
    promise object that each call of [Promise.resolve] creates is not
    modelled, so equality of two such handles says no more than equality
    of their values. *)
Inductive Thenable :=
| PromiseResolve (settings : StrudelSettings)
| ConfigurationResponse (request : nat).

(** What the server sends to the peer. *)
Inductive Outbound :=
| RegisterDidChangeConfiguration
| RegisterWorkspaceFoldersListener
| ConfigurationRequest (scopeUri : jsstring) (section : jsstring)
| DiagnosticsRefresh
| ConsoleLog (text : jsstring).

Record Server := {
  hasConfigurationCapability : bool;
  hasWorkspaceFolderCapability : bool;
  hasDiagnosticRelatedInformationCapability : bool;
  globalSettings : StrudelSettings;
  documentSettings : gmap jsstring Thenable;
  documents : gmap jsstring TextDocument;
  (** every message sent so far, oldest first; the sequence number of a
      request is its position in this list *)
  sent : list Outbound
}.

(** The state when the module has been loaded. *)
Definition initialServer : Server := {|
  hasConfigurationCapability := false;
  hasWorkspaceFolderCapability := false;
  hasDiagnosticRelatedInformationCapability := false;
  globalSettings := defaultSettings;
  documentSettings := ∅;
  documents := ∅;
  sent := []
|}.

Definition setCapabilities (c w r : bool) (s : Server) : Server := {|
  hasConfigurationCapability := c;
  hasWorkspaceFolderCapability := w;
  hasDiagnosticRelatedInformationCapability := r;
  globalSettings := globalSettings s;
  documentSettings := documentSettings s;
  documents := documents s;
  sent := sent s
|}.

Definition setGlobalSettings (g : StrudelSettings) (s : Server) : Server := {|
  hasConfigurationCapability := hasConfigurationCapability s;
  hasWorkspaceFolderCapability := hasWorkspaceFolderCapability s;
  hasDiagnosticRelatedInformationCapability :=
    hasDiagnosticRelatedInformationCapability s;
  globalSettings := g;
  documentSettings := documentSettings s;
  documents := documents s;
  sent := sent s
|}.

Definition setDocumentSettings (m : gmap jsstring Thenable) (s : Server)
  : Server := {|
  hasConfigurationCapability := hasConfigurationCapability s;
  hasWorkspaceFolderCapability := hasWorkspaceFolderCapability s;
  hasDiagnosticRelatedInformationCapability :=
    hasDiagnosticRelatedInformationCapability s;
  globalSettings := globalSettings s;
  documentSettings := m;
  documents := documents s;
  sent := sent s
|}.

Definition setDocuments (d : gmap jsstring TextDocument) (s : Server)
  : Server := {|
  hasConfigurationCapability := hasConfigurationCapability s;
  hasWorkspaceFolderCapability := hasWorkspaceFolderCapability s;
  hasDiagnosticRelatedInformationCapability :=
    hasDiagnosticRelatedInformationCapability s;
  globalSettings := globalSettings s;
  documentSettings := documentSettings s;
  documents := d;
  sent := sent s
|}.

Definition send (msg : Outbound) (s : Server) : Server := {|
  hasConfigurationCapability := hasConfigurationCapability s;
  hasWorkspaceFolderCapability := hasWorkspaceFolderCapability s;
  hasDiagnosticRelatedInformationCapability :=
    hasDiagnosticRelatedInformationCapability s;
  globalSettings := globalSettings s;
  documentSettings := documentSettings s;
  documents := documents s;
  sent := sent s ++ [msg]
|}.

(** ** Init *)

Record InitializeParams := {
  capabilities : JsValue
}.

(** The part of the [InitializeResult] that varies: whether
    [capabilities.workspace.workspaceFolders.supported] is announced.  The
    rest (incremental sync, completion with resolve, pull diagnostics) is
    constant. *)
Record InitializeResult := {
  workspaceFoldersSupported : bool
}.

(** [a && b] where [b] is only evaluated when [a] is truthy. *)
Definition andThen (a : JsValue) (b : option JsValue) : option JsValue :=
  if truthy a then b else Some a.

(** The three expressions under [!!( ... )] in [conn.onInitialize]. *)
Definition configurationSupport (capabilities : JsValue) : option JsValue :=
  workspace ← getProp capabilities "workspace";
  andThen workspace
    (workspace ← getProp capabilities "workspace";
     configuration ← getProp workspace "configuration";
     Some (JBool (truthy configuration))).

Definition workspaceFolderSupport (capabilities : JsValue) : option JsValue :=
  workspace ← getProp capabilities "workspace";
  andThen workspace
    (workspace ← getProp capabilities "workspace";
     workspaceFolders ← getProp workspace "workspaceFolders";
     Some (JBool (truthy workspaceFolders))).

Definition relatedInformationSupport (capabilities : JsValue)
  : option JsValue :=
  textDocument ← getProp capabilities "textDocument";
  andThen textDocument
    (textDocument ← getProp capabilities "textDocument";
     publishDiagnostics ← getProp textDocument "publishDiagnostics";
     andThen publishDiagnostics
       (textDocument ← getProp capabilities "textDocument";
        publishDiagnostics ← getProp textDocument "publishDiagnostics";
        getProp publishDiagnostics "relatedInformation")).

(** [conn.onInitialize].  The three flags are assigned one after the other;
    a [TypeError] leaves the state as it is at that point and the request
    fails ([None]). *)
Definition onInitialize (params : InitializeParams) (s : Server)
  : Server * option InitializeResult :=
  let capabilities := capabilities params in
  match configurationSupport capabilities with
  | None => (s, None)
  | Some v1 =>
      let s := setCapabilities (truthy v1)
                 (hasWorkspaceFolderCapability s)
                 (hasDiagnosticRelatedInformationCapability s) s in
      match workspaceFolderSupport capabilities with
      | None => (s, None)
      | Some v2 =>
          let s := setCapabilities (hasConfigurationCapability s)
                     (truthy v2)
                     (hasDiagnosticRelatedInformationCapability s) s in
          match relatedInformationSupport capabilities with
          | None => (s, None)
          | Some v3 =>
              let s := setCapabilities (hasConfigurationCapability s)
                         (hasWorkspaceFolderCapability s)
                         (truthy v3) s in
              (s, Some {| workspaceFoldersSupported :=
                            hasWorkspaceFolderCapability s |})
          end
      end
  end.

(** [conn.onInitialized]. *)
Definition onInitialized (s : Server) : Server :=
  let s := if hasConfigurationCapability s
           then send RegisterDidChangeConfiguration s else s in
  if hasWorkspaceFolderCapability s
  then send RegisterWorkspaceFoldersListener s else s.

(** ** Settings *)

(** The value of the section [strudelLanguageServer]: the settings object
    of the declared type, or one of the values that [||] replaces by the
    default settings, which are the missing property ([undefined]) and the
    falsy values of JSON. *)
Inductive SettingsSection :=
| SectionObject (settings : StrudelSettings)
| SectionUndefined
| SectionNull
| SectionFalse
| SectionZero
| SectionEmptyString.

(** [change.settings], declared [LSPAny]: [undefined] or [null], or a value
    with the section it holds (a value without the property holds
    [SectionUndefined]). *)
Inductive ChangeSettings :=
| SettingsNullish
| SettingsValue (section : SettingsSection).

Record DidChangeConfigurationParams := {
  settings : ChangeSettings
}.

(** The property read [settings.strudelLanguageServer]; [None] stands for
    the [TypeError] of reading a property of [undefined] or [null]. *)
Definition strudelLanguageServer (settings : ChangeSettings)
  : option SettingsSection :=
  match settings with
  | SettingsNullish => None
  | SettingsValue section => Some section
  end.

(** [section || defaultSettings]. *)
Definition orDefaultSettings (section : SettingsSection) : StrudelSettings :=
  match section with
  | SectionObject settings => settings
  | _ => defaultSettings
  end.

(** [conn.onDidChangeConfiguration].  The refresh follows the branch; when
    the property read of the [else] branch raises, the handler ends there,
    with nothing assigned and no refresh sent. *)
Definition onDidChangeConfiguration (change : DidChangeConfigurationParams)
    (s : Server) : Server :=
  match
    (if hasConfigurationCapability s
     then Some (setDocumentSettings ∅ s)
     else
       section ← strudelLanguageServer (settings change);
       Some (setGlobalSettings (orDefaultSettings section) s))
  with
  | Some s => send DiagnosticsRefresh s
  | None => s
  end.

(** The listener registered with [documents.onDidClose]. *)
Definition onDidClose (document : TextDocument) (s : Server) : Server :=
  setDocumentSettings (delete (uri document) (documentSettings s)) s.

(** [getDocumentSettings]. *)
Definition getDocumentSettings (resource : jsstring) (s : Server)
  : Thenable * Server :=
  if negb (hasConfigurationCapability s)
  then (PromiseResolve (globalSettings s), s)
  else
    match documentSettings s !! resource with
    | Some result => (result, s)
    | None =>
        let result := ConfigurationResponse (length (sent s)) in
        let s := send (ConfigurationRequest resource
                         (js "strudelLanguageServer")) s in
        (result, setDocumentSettings
                   (<[resource := result]> (documentSettings s)) s)
    end.

(** [conn.onDidChangeWatchedFiles]. *)
Definition onDidChangeWatchedFiles (s : Server) : Server :=
  send (ConsoleLog (js "We received a file change event")) s.

(** ** Validation *)

(** How an awaited promise ends: with a value, with a rejection, or never. *)
Inductive Settled (A : Type) :=
| Fulfilled (a : A)
| Rejected
| Pending.
Arguments Fulfilled {A} a.
Arguments Rejected {A}.
Arguments Pending {A}.

(** The peer answers configuration requests; [peer n] is how the request
    with sequence number [n] ends.  An answer is read at the declared type
    of the lookup, [StrudelSettings]; answers of another shape ([null], a
    fractional cap) are outside this type. *)
Definition await (peer : nat → Settled StrudelSettings) (t : Thenable)
  : Settled StrudelSettings :=
  match t with
  | PromiseResolve settings => Fulfilled settings
  | ConfigurationResponse request => peer request
  end.

(** The object literal built for one match in the body of the loop,
    together with the optional related information. *)
Definition errorDiagnostic (s : Server) (textDocument : TextDocument)
    (m : RegExpExecArray) : Diagnostic :=
  let range := {|
    start := positionAt textDocument (index m);
    end_ := positionAt textDocument (index m + length (matched m))
  |} in
  {| severity := vscode.DiagnosticSeverity.Warning;
     range := range;
     message := matched m ++ js " is all uppercase.";
     source := js "strudel";
     relatedInformation :=
       if hasDiagnosticRelatedInformationCapability s
       then Some [
         {| location := {| loc_uri := uri textDocument;
                           loc_range := {| start := start range;
                                           end_ := end_ range |} |};
            info_message := js "Spelling matters" |};
         {| location := {| loc_uri := uri textDocument;
                           loc_range := {| start := start range;
                                           end_ := end_ range |} |};
            info_message := js "Especially for names" |} ]
       else None |}.

(** The [while] loop of [validateTextDocument].  The loop state is the
    pattern's [lastIndex], the counter [errors] and the array
    [diagnostics]; [fuel] bounds the number of iterations and [None] means
    the bound was hit. *)
Fixpoint validateLoop (fuel : nat) (s : Server) (textDocument : TextDocument)
    (settings : StrudelSettings) (lastIndex : nat) (errors : Z)
    (diagnostics : list Diagnostic) : option (list Diagnostic) :=
  match fuel with
  | 0 => None
  | S fuel' =>
      match exec (getText textDocument) lastIndex with
      | (Some m, lastIndex') =>
          if (errors <? maxErrorCount settings)%Z
          then validateLoop fuel' s textDocument settings lastIndex'
                 (errors + 1)%Z
                 (diagnostics ++ [errorDiagnostic s textDocument m])
          else Some diagnostics
      | (None, _) => Some diagnostics
      end
  end.

(** [validateTextDocument] from the point where the settings have arrived.
    Every match consumes at least two characters, so one iteration per
    character and one more is a generous bound. *)
Definition validate (s : Server) (textDocument : TextDocument)
    (settings : StrudelSettings) : option (list Diagnostic) :=
  validateLoop (S (length (getText textDocument))) s textDocument settings
    0 0%Z [].

(** [validateTextDocument]: look the settings up, wait for them, scan.  A
    scan that hit its bound would be a request that never settles; the scan
    is shown below to return always. *)
Definition validateTextDocument (peer : nat → Settled StrudelSettings)
    (textDocument : TextDocument) (s : Server)
  : Settled (list Diagnostic) * Server :=
  let '(result, s) := getDocumentSettings (uri textDocument) s in
  match await peer result with
  | Fulfilled settings =>
      match validate s textDocument settings with
      | Some diagnostics => (Fulfilled diagnostics, s)
      | None => (Pending, s)
      end
  | Rejected => (Rejected, s)
  | Pending => (Pending, s)
  end.

Inductive DocumentDiagnosticReportKind := Full | Unchanged.

Record DocumentDiagnosticReport := {
  kind : DocumentDiagnosticReportKind;
  items : list Diagnostic
}.

(** [conn.languages.diagnostics.on]. *)
Definition onDiagnostics (peer : nat → Settled StrudelSettings)
    (textDocumentUri : jsstring) (s : Server)
  : Settled DocumentDiagnosticReport * Server :=
  match documents s !! textDocumentUri with
  | Some doc =>
      match validateTextDocument peer doc s with
      | (Fulfilled diagnostics, s) =>
          (Fulfilled {| kind := Full; items := diagnostics |}, s)
      | (Rejected, s) => (Rejected, s)
      | (Pending, s) => (Pending, s)
      end
  | None => (Fulfilled {| kind := Full; items := [] |}, s)
  end.

(** ** Completion *)

(** A completion item is a plain object; the handlers read and write its
    properties by name. *)
Abbreviation CompletionItem := (gmap string JsValue).

Module CompletionItemKind.
Definition Text : Z := 1.
End CompletionItemKind.

(** [conn.onCompletion]. *)
Definition onCompletion : list CompletionItem :=
  [ <["label" := JString (js "TypeScript")]>
      (<["kind" := JNumber CompletionItemKind.Text]>
         (<["data" := JNumber 1]> ∅));
    <["label" := JString (js "JavaScript")]>
      (<["kind" := JNumber CompletionItemKind.Text]>
         (<["data" := JNumber 2]> ∅)) ].

(** [conn.onCompletionResolve].  [item.data === 1] holds for the number 1
    only; a missing [data] reads as [undefined]. *)
Definition onCompletionResolve (item : CompletionItem) : CompletionItem :=
  match item !! "data" with
  | Some (JNumber 1) =>
      <["documentation" := JString (js "TypeScript documentation")]>
        (<["detail" := JString (js "TypeScript details")]> item)
  | Some (JNumber 2) =>
      <["documentation" := JString (js "JavaScript documentation")]>
        (<["detail" := JString (js "JavaScript details")]> item)
  | _ => item
  end.

(** ** The document store and the event loop *)

(** Modelled from the spec: the Document Store ([TextDocuments] of
    [vscode-languageserver], not among the sources).  A document is created
    on the open notification, replaced on a change notification and
    destroyed on the close notification; the close listener of the server
    runs for documents that were open. *)
Definition didOpen (doc : TextDocument) (s : Server) : Server :=
  setDocuments (<[uri doc := doc]> (documents s)) s.

Definition didChange (doc : TextDocument) (s : Server) : Server :=
  match documents s !! uri doc with
  | Some _ => setDocuments (<[uri doc := doc]> (documents s)) s
  | None => s
  end.

Definition didClose (textDocumentUri : jsstring) (s : Server) : Server :=
  match documents s !! textDocumentUri with
  | Some doc =>
      onDidClose doc (setDocuments (delete textDocumentUri (documents s)) s)
  | None => s
  end.

(** The inbound messages. *)
Inductive Event :=
| Initialize (params : InitializeParams)
| Initialized
| DidChangeConfiguration (change : DidChangeConfigurationParams)
| DidOpen (doc : TextDocument)
| DidChange (doc : TextDocument)
| DidClose (textDocumentUri : jsstring)
| DidChangeWatchedFiles
| DiagnosticsRequest (textDocumentUri : jsstring)
| CompletionRequest
| CompletionResolveRequest (item : CompletionItem).

(** One inbound message, handled to completion. *)
Definition handle (peer : nat → Settled StrudelSettings) (e : Event)
    (s : Server) : Server :=
  match e with
  | Initialize params => fst (onInitialize params s)
  | Initialized => onInitialized s
  | DidChangeConfiguration change => onDidChangeConfiguration change s
  | DidOpen doc => didOpen doc s
  | DidChange doc => didChange doc s
  | DidClose u => didClose u s
  | DidChangeWatchedFiles => onDidChangeWatchedFiles s
  | DiagnosticsRequest u => snd (onDiagnostics peer u s)
  | CompletionRequest => s
  | CompletionResolveRequest _ => s
  end.

(** The session after a sequence of inbound messages, oldest first. *)
Definition run (peer : nat → Settled StrudelSettings) (trace : list Event)
    (s : Server) : Server :=
  foldl (fun s e => handle peer e s) s trace.

Definition isInitialize (e : Event) : bool :=
  match e with
  | Initialize _ => true
  | _ => false
  end.

(** The protocol sends the initialization request once per session. *)
Definition initializedOnce (trace : list Event) : Prop :=
  length (List.filter isInitialize trace) ≤ 1.

(** The states a session can be in. *)
Definition reachable (s : Server) : Prop :=
  ∃ peer trace, initializedOnce trace ∧ s = run peer trace initialServer.

(** ** The words of a text, as the specification counts them *)

(** The maximal runs of word characters of a text, in order; two adjacent
    separators have an empty run between them. *)
Fixpoint wordsOf (s : jsstring) : list jsstring :=
  match s with
  | [] => [[]]
  | c :: s' =>
      if isWordChar c
      then match wordsOf s' with
           | w :: ws => (c :: w) :: ws
           | [] => [[c]]
           end
      else [] :: wordsOf s'
  end.

(** A whole word that is a run of two or more uppercase letters. *)
Definition isUppercaseWord (w : jsstring) : bool :=
  (2 <=? length w) && forallb isUpper w.

(** [matchCount] of the specification. *)
Definition matchCount (text : jsstring) : nat :=
  length (List.filter isUppercaseWord (wordsOf text)).

(** Every match of the pattern that starts at one of the [n] positions from
    [i] on, as pairs of the start and the end index, in increasing order. *)
Fixpoint matchesIn (n : nat) (text : jsstring) (i : nat) : list (nat * nat) :=
  match n with
  | 0 => []
  | S n' =>
      match matchAt text i with
      | Some e => (i, e) :: matchesIn n' text (S i)
      | None => matchesIn n' text (S i)
      end
  end.

(** All matches of the pattern in a text. *)
Definition allMatches (text : jsstring) : list (nat * nat) :=
  matchesIn (S (length text)) text 0.

(** The finding reported for a match. *)
Definition diagnosticOf (s : Server) (textDocument : TextDocument)
    (m : nat * nat) : Diagnostic :=
  errorDiagnostic s textDocument
    {| index := m.1;
       matched := substring (getText textDocument) m.1 m.2 |}.

(** A line ends after the character [c], given the character that follows
    it: after LF always, after CR unless LF follows. *)
Definition endsLine (c : N) (next : option N) : bool :=
  ((c =? LF) || ((c =? CR)
                 && negb match next with
                         | Some c' => c' =? LF
                         | None => false
                         end))%N.

(** The character offsets that the range of a finding decodes to, through
    the offset table of the document. *)
Definition decode (D : TextDocument) (f : Diagnostic) : nat * nat :=
  (offsetAt D (start (range f)), offsetAt D (end_ (range f))).

(** One range lies entirely to the left of another. *)
Definition leftOf (a b : nat * nat) : Prop := a.2 ≤ b.1.

(** The per-document cache is not in use: the session runs on the global
    settings. *)
Definition cacheUnused (s : Server) : Prop :=
  hasConfigurationCapability s = false → documentSettings s = ∅.

(** Every entry of the per-document cache is the pending answer to a
    configuration request that was sent for that very URI. *)
Definition cacheFromPulls (s : Server) : Prop :=
  ∀ u t, documentSettings s !! u = Some t →
    ∃ n, t = ConfigurationResponse n ∧
         sent s !! n =
           Some (ConfigurationRequest u (js "strudelLanguageServer")).

Definition isDidChangeConfiguration (e : Event) : bool :=
  match e with
  | DidChangeConfiguration _ => true
  | _ => false
  end.

(** [v.name] for a value [v] that is known not to be [undefined] or [null]
    (and [undefined] otherwise). *)
Definition field (v : JsValue) (name : string) : JsValue :=
  match getProp v name with
  | Some x => x
  | None => JUndefined
  end.

(** Documents and settings used in the scenarios. *)
Definition scenarioDocument (text : string) : TextDocument :=
  {| uri := js "file:///scenario.str"; version := 1; getText := js text |}.

Definition scenarioUri : jsstring := js "file:///scenario.str".

(** A session whose peer supports configuration pull. *)
Definition pullingServer : Server :=
  setCapabilities true false false initialServer.

(** Capabilities with a workspace-folders field that is not a boolean. *)
Definition malformedCapabilities : JsValue :=
  JObject [("workspace",
            JObject [("workspaceFolders", JString (js "yes"))])].

(** Capabilities without any of the fields the server reads. *)
Definition emptyCapabilities : JsValue := JObject [].

(** A completion item with an identifier that no handler produced. *)
Definition foreignItem : CompletionItem :=
  <["label" := JString (js "Strudel")]> (<["data" := JNumber 3]> ∅).

(** A session in which the peer announced configuration pull, opened a
    document and asked for its diagnostics. *)
Definition pullingCapabilities : JsValue :=
  JObject [("workspace", JObject [("configuration", JBool true)])].

Definition sampleTrace : list Event :=
  [ Initialize {| capabilities := pullingCapabilities |};
    Initialized;
    DidOpen (scenarioDocument "let ABC = 1;");
    DiagnosticsRequest scenarioUri ].

Definition sampleSession : Server :=
  run (λ _, Pending) sampleTrace initialServer.

(** A notification that carries a settings section. *)
Definition sampleChange : DidChangeConfigurationParams :=
  {| settings := SettingsValue (SectionObject {| maxErrorCount := 5 |}) |}.

(** A session without configuration pull whose global settings were set
    to a cap of 5 by an earlier notification. *)
Definition cappedServer : Server :=
  onDidChangeConfiguration sampleChange initialServer.

(** Neither an initialization request nor a configuration change. *)
Definition keepsSettings (e : Event) : bool :=
  negb (isInitialize e) && negb (isDidChangeConfiguration e).

(** ** Helpers for stating further properties *)

(** A finding without its related information. *)
Definition withoutRelatedInformation (f : Diagnostic) : Diagnostic :=
  {| severity := severity f;
     range := range f;
     message := message f;
     source := source f;
     relatedInformation := None |}.

Definition isConfigurationRequest (o : Outbound) : bool :=
  match o with
  | ConfigurationRequest _ _ => true
  | _ => false
  end.

(** Every stored document is filed under its own URI. *)
Definition storeKeyed (s : Server) : Prop :=
  ∀ u doc, documents s !! u = Some doc → uri doc = u.

(** A peer that rejects every configuration request. *)
Definition rejectingPeer : nat → Settled StrudelSettings := λ _, Rejected.

(** A session with configuration pull in which one document is open. *)
Definition openServer : Server :=
  didOpen (scenarioDocument "let ABC = 1;") pullingServer.

(** A session with configuration pull and a cached lookup. *)
Definition cachedServer : Server :=
  (getDocumentSettings scenarioUri openServer).2.

(** ** The client extension ([client/src/extension.ts]) *)

Module extension.

Inductive TransportKind := stdio | ipc | pipe | socket.

Record NodeModule := {
  module : jsstring;
  transport : TransportKind
}.

Record ServerOptions := {
  run : NodeModule;
  debug : NodeModule
}.

Record DocumentFilter := {
  scheme : jsstring;
  language : jsstring
}.

(** [fileEvents] is the glob of the file-system watcher. *)
Record LanguageClientOptions := {
  documentSelector : list DocumentFilter;
  fileEvents : jsstring
}.

Record LanguageClient := {
  id : jsstring;
  name : jsstring;
  serverOptions : ServerOptions;
  clientOptions : LanguageClientOptions
}.

Record ExtensionContext := {
  asAbsolutePath : jsstring → jsstring
}.

(** What the extension asks of a language client. *)
Inductive Call :=
| Start (c : LanguageClient)
| Stop (c : LanguageClient).

(** The module-level variable [client] ([None] while it is unassigned) and
    the calls made so far, oldest first. *)
Record Host := {
  client : option LanguageClient;
  calls : list Call
}.

Definition loaded : Host := {| client := None; calls := [] |}.

(** [path.join] of three plain segments; [sep] is the separator of the
    platform. *)
Definition join (sep a b c : jsstring) : jsstring :=
  a ++ sep ++ b ++ sep ++ c.

(** [activate]. *)
Definition activate (sep : jsstring) (ctx : ExtensionContext) (h : Host)
  : Host :=
  let serverModule :=
    asAbsolutePath ctx (join sep (js "server") (js "out") (js "server.js")) in
  let serverOpts := {|
    run := {| module := serverModule; transport := ipc |};
    debug := {| module := serverModule; transport := ipc |}
  |} in
  let clientOpts := {|
    documentSelector :=
      [ {| scheme := js "file"; language := js "strudel" |} ];
    fileEvents := js "**/.clientrc"
  |} in
  let c := {|
    id := js "strudelLanguageServer";
    name := js "Strudel Language Server";
    serverOptions := serverOpts;
    clientOptions := clientOpts
  |} in
  {| client := Some c; calls := calls h ++ [Start c] |}.

(** [deactivate]; the result is [None] for [undefined] and the promise of
    [client.stop()] otherwise. *)
Definition deactivate (h : Host) : option LanguageClient * Host :=
  match client h with
  | None => (None, h)
  | Some c => (Some c, {| client := client h; calls := calls h ++ [Stop c] |})
  end.

(** The calls the editor makes into the extension. *)
Inductive Lifecycle :=
| Activate (ctx : ExtensionContext)
| Deactivate.

Definition step (sep : jsstring) (h : Host) (e : Lifecycle) : Host :=
  match e with
  | Activate ctx => activate sep ctx h
  | Deactivate => (deactivate h).2
  end.

(** The client most recently started, according to a call log. *)
Fixpoint lastStarted (l : list Call) : option LanguageClient :=
  match l with
  | [] => None
  | Start c :: rest =>
      match lastStarted rest with
      | Some c' => Some c'
      | None => Some c
      end
  | Stop _ :: rest => lastStarted rest
  end.

End extension.

(** A session without configuration pull in which a document was opened
    and validated. *)
Definition fallbackTrace : list Event :=
  [ Initialize {| capabilities := emptyCapabilities |};
    Initialized;
    DidOpen (scenarioDocument "let ABC = 1;");
    DiagnosticsRequest scenarioUri ].

Definition fallbackSession : Server :=
  run (λ _, Pending) fallbackTrace initialServer.

(** The first candidate of the completion handler. *)
Definition typescriptItem : CompletionItem :=
  <["label" := JString (js "TypeScript")]>
    (<["kind" := JNumber CompletionItemKind.Text]>
       (<["data" := JNumber 1]> ∅)).

(** Capabilities that announce configuration pull and workspace folders. *)
Definition fullCapabilities : JsValue :=
  JObject [("workspace",
            JObject [("configuration", JBool true);
                     ("workspaceFolders", JBool true)])].

(** A peer that answers every configuration request with a cap of one. *)
Definition cappingPeer : nat → Settled StrudelSettings :=
  λ _, Fulfilled {| maxErrorCount := 1 |}.
(** * Properties of the pattern *)

Section pattern.
Implicit Types (text s pre : jsstring) (i k e p : nat).

Lemma isUpper_isWordChar c : isUpper c = true → isWordChar c = true.
Proof. unfold isWordChar. intros ->. reflexivity. Qed.

Lemma upperRun_lookup s p :
  p < upperRun s → ∃ c, s !! p = Some c ∧ isUpper c = true.
Proof.
  revert p. induction s as [|c s IH]; intros p Hp; simpl in *; [lia|].
  destruct (isUpper c) eqn:Hc; [|lia].
  destruct p as [|p]; simpl; [eauto|]. apply IH. lia.
Qed.

Lemma upperRun_stop s :
  match s !! upperRun s with
  | Some c => isUpper c = false
  | None => True
  end.
Proof.
  induction s as [|c s IH]; simpl; [done|].
  destruct (isUpper c) eqn:Hc; simpl; done.
Qed.

Lemma upperRun_length s : upperRun s ≤ length s.
Proof.
  induction s as [|c s IH]; simpl; [lia|]. destruct (isUpper c); simpl; lia.
Qed.

(** Inside a run of letters there is no word boundary. *)
Lemma wordBoundary_inside text i p :
  0 < p → p < upperRun (drop i text) → wordBoundary text (i + p) = false.
Proof.
  intros H0 Hp. unfold wordBoundary.
  destruct p as [|p]; [lia|].
  replace (i + S p) with (S (i + p)) by lia. simpl.
  unfold isWordCharAt.
  destruct (upperRun_lookup (drop i text) p) as (c & Hc & Uc); [lia|].
  destruct (upperRun_lookup (drop i text) (S p)) as (d & Hd & Ud); [lia|].
  rewrite lookup_drop in Hc, Hd.
  replace (i + S p) with (S (i + p)) in Hd by lia.
  rewrite Hc, Hd, !isUpper_isWordChar by done. reflexivity.
Qed.

(** Giving letters back never helps: only the whole run can be followed
    by a boundary. *)
Lemma backtrack_run text i k :
  k ≤ upperRun (drop i text) →
  backtrack text i k =
    if (k =? upperRun (drop i text)) && (2 <=? k) && wordBoundary text (i + k)
    then Some (i + k) else None.
Proof.
  induction k as [|k IH]; intros Hk.
  { simpl. by rewrite andb_false_r. }
  cbn [backtrack].
  destruct (S k <? 2) eqn:H2.
  { apply Nat.ltb_lt in H2. replace (2 <=? S k) with false
      by (symmetry; apply Nat.leb_gt; lia).
    by rewrite andb_false_r. }
  apply Nat.ltb_ge in H2.
  replace (2 <=? S k) with true by (symmetry; apply Nat.leb_le; lia).
  rewrite andb_true_r.
  destruct (S k =? upperRun (drop i text)) eqn:Heq.
  - apply Nat.eqb_eq in Heq. simpl.
    destruct (wordBoundary text (i + S k)) eqn:Hb; [done|].
    rewrite IH by lia.
    replace (k =? upperRun (drop i text)) with false
      by (symmetry; apply Nat.eqb_neq; lia). done.
  - apply Nat.eqb_neq in Heq.
    rewrite wordBoundary_inside by lia.
    rewrite IH by lia.
    destruct (k =? upperRun (drop i text)) eqn:Heq'; [|done].
    apply Nat.eqb_eq in Heq'. lia.
Qed.

(** What a successful attempt at position [i] means. *)
Lemma matchAt_Some text i e :
  matchAt text i = Some e ↔
  wordBoundary text i = true ∧ 2 ≤ upperRun (drop i text) ∧
  e = i + upperRun (drop i text) ∧ wordBoundary text e = true.
Proof.
  unfold matchAt. rewrite backtrack_run by lia.
  rewrite Nat.eqb_refl, andb_true_l.
  destruct (wordBoundary text i); [|split; [done|intros [? _]; done]].
  destruct (2 <=? upperRun (drop i text)) eqn:H2; simpl.
  - apply Nat.leb_le in H2.
    destruct (wordBoundary text (i + upperRun (drop i text))) eqn:Hb; simpl.
    + split.
      * intros [= <-]. by rewrite Hb.
      * intros (_ & _ & Heq & _). by rewrite Heq.
    + split; [done|]. intros (_ & _ & -> & He). congruence.
  - apply Nat.leb_gt in H2. split; [done|]. lia.
Qed.

Lemma matchAt_bounds text i e :
  matchAt text i = Some e → i + 2 ≤ e ∧ e ≤ length text.
Proof.
  rewrite matchAt_Some. intros (_ & H2 & -> & _).
  pose proof (upperRun_length (drop i text)) as Hl.
  rewrite length_drop in Hl. lia.
Qed.

(** The matched characters are uppercase letters. *)
Lemma matchAt_upper text i e p :
  matchAt text i = Some e → i ≤ p → p < e →
  ∃ c, text !! p = Some c ∧ isUpper c = true.
Proof.
  rewrite matchAt_Some. intros (_ & _ & -> & _) Hi Hp.
  destruct (upperRun_lookup (drop i text) (p - i)) as (c & Hc & Uc); [lia|].
  rewrite lookup_drop in Hc. replace (i + (p - i)) with p in Hc by lia.
  eauto.
Qed.

(** No other match starts inside a match or right at its end. *)
Lemma matchAt_inside text i e p :
  matchAt text i = Some e → i < p → p ≤ e → matchAt text p = None.
Proof.
  intros Hm Hi Hp. pose proof Hm as Hm'.
  apply matchAt_Some in Hm' as (_ & H2 & -> & _).
  destruct (decide (p = i + upperRun (drop i text))) as [->|Hne].
  - unfold matchAt.
    pose proof (upperRun_stop (drop i text)) as Hs.
    rewrite lookup_drop in Hs.
    assert (upperRun (drop (i + upperRun (drop i text)) text) = 0) as ->.
    { destruct (drop (i + upperRun (drop i text)) text) as [|c r] eqn:Hd;
        [done|].
      assert (text !! (i + upperRun (drop i text)) = Some c) as Hc.
      { rewrite <- (Nat.add_0_r (i + _)), <- lookup_drop, Hd. done. }
      rewrite Hc in Hs. simpl. by rewrite Hs. }
    by destruct (wordBoundary _ _).
  - unfold matchAt.
    replace p with (i + (p - i)) by lia.
    rewrite wordBoundary_inside by lia. done.
Qed.
End pattern.

(** * The validation loop *)

Section loop.
Implicit Types (text : jsstring) (i n d e : nat).

Lemma matchesIn_skip text d n i :
  (∀ p, i ≤ p → p < i + d → matchAt text p = None) →
  matchesIn (d + n) text i = matchesIn n text (i + d).
Proof.
  revert i. induction d as [|d IH]; intros i Hnone; simpl.
  - by rewrite Nat.add_0_r.
  - rewrite Hnone by lia. rewrite IH; [f_equal; lia|].
    intros p ? ?. apply Hnone; lia.
Qed.

Lemma scan_None text n i :
  scan n text i = None → matchesIn n text i = [].
Proof.
  revert i. induction n as [|n IH]; intros i; simpl; [done|].
  destruct (matchAt text i); [done|]. apply IH.
Qed.

Lemma scan_Some text n i j e :
  scan n text i = Some (j, e) →
  i ≤ j ∧ j < i + n ∧ matchAt text j = Some e ∧
  matchesIn n text i = (j, e) :: matchesIn (i + n - S j) text (S j).
Proof.
  revert i. induction n as [|n IH]; intros i; simpl; [done|].
  destruct (matchAt text i) as [e'|] eqn:Hm.
  - intros [= <- <-]. repeat split; [lia..|done|].
    do 2 f_equal. lia.
  - intros Hs. apply IH in Hs as (? & ? & ? & ->).
    repeat split; [lia..|done|]. do 2 f_equal. lia.
Qed.

(** One call of [exec] from a valid [lastIndex]: either there is no match
    left, or the first one is returned and [lastIndex] moves to its
    end. *)
Lemma exec_spec text i :
  i ≤ length text →
  match exec text i with
  | (None, _) => matchesIn (S (length text) - i) text i = []
  | (Some m, i') =>
      i < i' ∧ i' ≤ length text ∧
      matched m = substring text (index m) i' ∧
      matchesIn (S (length text) - i) text i =
        (index m, i') :: matchesIn (S (length text) - i') text i'
  end.
Proof.
  intros Hi. unfold exec.
  replace (length text <? i) with false by (symmetry; apply Nat.ltb_ge; lia).
  replace (S (length text) - i) with (S (length text - i)) by lia.
  destruct (scan _ text i) as [[j e]|] eqn:Hs.
  - apply scan_Some in Hs as (Hj & Hn & Hm & ->). cbn [index matched].
    pose proof (matchAt_bounds _ _ _ Hm) as [? ?].
    repeat split; [lia..|]. f_equal.
    replace (i + S (length text - i) - S j)
      with ((e - S j) + (S (length text) - e)) by lia.
    rewrite matchesIn_skip; [f_equal; lia|].
    intros p ? ?. eapply matchAt_inside; [done|lia..].
  - by apply scan_None.
Qed.

Lemma validateLoop_spec s doc settings fuel i errors diagnostics :
  i ≤ length (getText doc) →
  length (getText doc) - i < fuel →
  validateLoop fuel s doc settings i errors diagnostics =
    Some (diagnostics ++
          map (diagnosticOf s doc)
            (take (Z.to_nat (maxErrorCount settings - errors))
               (matchesIn (S (length (getText doc)) - i) (getText doc) i))).
Proof.
  revert i errors diagnostics.
  induction fuel as [|fuel IH]; intros i errors diagnostics Hi Hfuel; [lia|].
  cbn [validateLoop].
  pose proof (exec_spec (getText doc) i Hi) as Hexec.
  destruct (exec (getText doc) i) as [[m|] i'].
  - destruct Hexec as (Hlt & Hle & Hm & ->).
    destruct (errors <? maxErrorCount settings)%Z eqn:Hcap.
    + apply Z.ltb_lt in Hcap.
      rewrite IH by lia.
      replace (Z.to_nat (maxErrorCount settings - errors))
        with (S (Z.to_nat (maxErrorCount settings - (errors + 1)))) by lia.
      cbn [take map]. rewrite <- app_assoc. do 3 f_equal.
      unfold diagnosticOf. cbn [fst snd]. rewrite <- Hm. by destruct m.
    + apply Z.ltb_ge in Hcap.
      replace (Z.to_nat (maxErrorCount settings - errors)) with 0 by lia.
      by rewrite take_0, app_nil_r.
  - rewrite Hexec, take_nil, app_nil_r. done.
Qed.

(** The validator always returns, and what it returns are the findings of
    the first [maxErrorCount] matches. *)
Lemma validate_spec s doc settings :
  validate s doc settings =
    Some (map (diagnosticOf s doc)
            (take (Z.to_nat (maxErrorCount settings))
               (allMatches (getText doc)))).
Proof.
  unfold validate. rewrite validateLoop_spec by lia.
  rewrite Z.sub_0_r, Nat.sub_0_r. done.
Qed.
End loop.

(** * The matches of the pattern are the uppercase words of the text *)

Section words.
Implicit Types (text s pre w : jsstring) (i : nat).

Lemma wordsOf_nonempty s : wordsOf s ≠ [].
Proof.
  destruct s as [|c s]; simpl; [done|].
  destruct (isWordChar c); [|done]. by destruct (wordsOf s).
Qed.

Lemma isWordCharAt_app_r pre s i :
  isWordCharAt (pre ++ s) (length pre + i) = isWordCharAt s i.
Proof. unfold isWordCharAt. by rewrite lookup_app_r, Nat.add_sub' by lia. Qed.

Lemma isWordCharBefore_app pre s :
  isWordCharBefore (pre ++ s) (length pre) =
  isWordCharBefore pre (length pre).
Proof.
  destruct pre as [|c pre] using rev_ind; [done|].
  rewrite length_app, Nat.add_1_r. simpl. unfold isWordCharAt.
  rewrite <- app_assoc, !(lookup_app_r pre) by lia.
  by rewrite Nat.sub_diag.
Qed.

Lemma isWordCharBefore_snoc pre c :
  isWordCharBefore (pre ++ [c]) (length (pre ++ [c])) = isWordChar c.
Proof.
  rewrite length_app, Nat.add_1_r. simpl. unfold isWordCharAt.
  by rewrite lookup_app_r, Nat.sub_diag by lia.
Qed.

(** The attempt at a position only looks at the character before it and
    at the text from it on. *)
Lemma matchAt_app pre s :
  matchAt (pre ++ s) (length pre) =
    if xorb (isWordCharBefore pre (length pre)) (isWordCharAt s 0)
       && (2 <=? upperRun s) && negb (isWordCharAt s (upperRun s))
    then Some (length pre + upperRun s) else None.
Proof.
  unfold matchAt. rewrite backtrack_run by lia.
  rewrite Nat.eqb_refl, andb_true_l, drop_app_length.
  unfold wordBoundary at 1.
  rewrite isWordCharBefore_app.
  rewrite <- (Nat.add_0_r (length pre)) at 2. rewrite isWordCharAt_app_r.
  destruct (xorb _ _); [|done]. rewrite andb_true_l.
  destruct (2 <=? upperRun s) eqn:H2; [|done]. apply Nat.leb_le in H2.
  rewrite !andb_true_l. unfold wordBoundary.
  rewrite isWordCharAt_app_r.
  destruct (upperRun s) as [|r] eqn:Hr; [lia|].
  replace (length pre + S r) with (S (length pre + r)) by lia. simpl.
  rewrite isWordCharAt_app_r.
  destruct (upperRun_lookup s r) as (c & Hc & Uc); [lia|].
  unfold isWordCharAt at 1. rewrite Hc, isUpper_isWordChar by done.
  done.
Qed.

Lemma firstWord_forallb s :
  forallb isUpper (hd [] (wordsOf s)) = negb (isWordCharAt s (upperRun s)).
Proof.
  induction s as [|c s IH]; [done|]. simpl.
  pose proof (wordsOf_nonempty s) as Hne.
  destruct (isUpper c) eqn:Uc.
  - rewrite isUpper_isWordChar by done.
    destruct (wordsOf s) as [|w ws]; [done|]. simpl in *. by rewrite Uc.
  - unfold isWordCharAt. simpl.
    destruct (isWordChar c); [|done].
    destruct (wordsOf s) as [|w ws]; [done|]. simpl. by rewrite Uc.
Qed.

Lemma firstWord_length s :
  forallb isUpper (hd [] (wordsOf s)) = true →
  length (hd [] (wordsOf s)) = upperRun s.
Proof.
  induction s as [|c s IH]; [done|]. simpl.
  pose proof (wordsOf_nonempty s) as Hne.
  destruct (isUpper c) eqn:Uc.
  - rewrite isUpper_isWordChar by done.
    destruct (wordsOf s) as [|w ws]; [done|]. simpl in *. rewrite Uc.
    intros H. by rewrite IH.
  - destruct (isWordChar c); [|done].
    destruct (wordsOf s) as [|w ws]; [done|]. simpl. by rewrite Uc.
Qed.

(** A match starts at the beginning of a word exactly when that word is
    an uppercase word. *)
Lemma firstWord_upper s :
  isUppercaseWord (hd [] (wordsOf s)) =
  (2 <=? upperRun s) && negb (isWordCharAt s (upperRun s)).
Proof.
  unfold isUppercaseWord. rewrite <- firstWord_forallb.
  destruct (forallb isUpper _) eqn:Hall; [|by rewrite !andb_false_r].
  by rewrite firstWord_length.
Qed.

Lemma matchesIn_S_length n text i :
  length (matchesIn (S n) text i) =
  (if matchAt text i is Some _ then 1 else 0) + length (matchesIn n text (S i)).
Proof. simpl. by destruct (matchAt text i). Qed.

Lemma matchesIn_words s pre :
  length (matchesIn (S (length s)) (pre ++ s) (length pre)) =
  length (List.filter isUppercaseWord
            (if isWordCharBefore pre (length pre)
             then tail (wordsOf s) else wordsOf s)).
Proof.
  revert pre. induction s as [|c s IH]; intros pre.
  - rewrite matchesIn_S_length, matchAt_app. simpl.
    rewrite andb_false_r. by destruct (isWordCharBefore _ _).
  - cbn [length]. rewrite matchesIn_S_length.
    assert (length (matchesIn (S (length s)) (pre ++ c :: s) (S (length pre)))
            = length (List.filter isUppercaseWord
                        (if isWordChar c then tail (wordsOf s)
                         else wordsOf s))) as Hrest.
    { specialize (IH (pre ++ [c])).
      rewrite <- app_assoc, isWordCharBefore_snoc in IH.
      rewrite length_app, Nat.add_1_r in IH. exact IH. }
    rewrite matchAt_app.
    pose proof (firstWord_upper (c :: s)) as Hfirst.
    pose proof (wordsOf_nonempty s) as Hne.
    cbn [wordsOf] in *.
    unfold isWordCharAt at 1. cbn [lookup list_lookup].
    destruct (isWordChar c) eqn:Wc.
    + destruct (wordsOf s) as [|w ws]; [done|]. cbn [hd tail] in *.
      destruct (isWordCharBefore pre (length pre)); cbn [xorb andb tail].
      * exact Hrest.
      * cbn [List.filter]. rewrite Hfirst, Hrest.
        by destruct (_ && _).
    + assert (upperRun (c :: s) = 0) as ->.
      { simpl. destruct (isUpper c) eqn:Uc; [|done].
        apply isUpper_isWordChar in Uc. congruence. }
      rewrite andb_false_r, andb_false_l. cbn [Nat.add].
      destruct (isWordCharBefore pre (length pre)); exact Hrest.
Qed.

(** The pattern matches exactly the uppercase words. *)
Lemma allMatches_matchCount text :
  length (allMatches text) = matchCount text.
Proof. apply (matchesIn_words text []). Qed.
End words.

(** * The offset table *)

Section offsets.
Implicit Types (doc : TextDocument) (text s : jsstring) (L : list nat).
Implicit Types (i o p lo : nat).

Lemma lineOffsetsFrom_cons i c s :
  lineOffsetsFrom i (c :: s) =
  (if endsLine c (head s) then [i + 1] else []) ++ lineOffsetsFrom (i + 1) s.
Proof.
  unfold endsLine. cbn [lineOffsetsFrom].
  destruct (c =? CR)%N eqn:Hcr.
  - apply N.eqb_eq in Hcr as ->.
    destruct s as [|c' s']; [done|]. cbn [head lineOffsetsFrom].
    destruct (c' =? LF)%N eqn:Hlf; [|done].
    apply N.eqb_eq in Hlf as ->. simpl.
    by replace (i + 1 + 1) with (i + 2) by lia.
  - rewrite andb_false_l, orb_false_r. by destruct (c =? LF)%N.
Qed.

Lemma lineOffsetsFrom_bounds i s :
  Forall (λ x, i < x ∧ x ≤ i + length s) (lineOffsetsFrom i s).
Proof.
  revert i. induction s as [|c s IH]; intros i; [constructor|].
  rewrite lineOffsetsFrom_cons. apply Forall_app. split.
  - destruct (endsLine _ _); repeat constructor; simpl; lia.
  - eapply Forall_impl; [apply IH|]. simpl. lia.
Qed.

Lemma lineOffsetsFrom_sorted i s : StronglySorted lt (lineOffsetsFrom i s).
Proof.
  revert i. induction s as [|c s IH]; intros i; [constructor|].
  rewrite lineOffsetsFrom_cons.
  destruct (endsLine _ _); simpl; [|apply IH].
  constructor; [apply IH|].
  eapply Forall_impl; [apply lineOffsetsFrom_bounds|]. simpl. lia.
Qed.

Lemma lineOffsetsFrom_elem i s p c :
  s !! p = Some c → endsLine c (s !! S p) = true →
  i + p + 1 ∈ lineOffsetsFrom i s.
Proof.
  revert i p. induction s as [|c' s IH]; intros i p Hp He; [done|].
  rewrite lineOffsetsFrom_cons. apply elem_of_app.
  destruct p as [|p]; simpl in *.
  - left. injection Hp as ->. rewrite <- head_lookup in He. rewrite He.
    rewrite Nat.add_0_r. apply list_elem_of_singleton. done.
  - right. replace (i + S p + 1) with (i + 1 + p + 1) by lia. by apply IH.
Qed.

Lemma getLineOffsets_sorted doc : StronglySorted lt (getLineOffsets doc).
Proof.
  constructor; [apply lineOffsetsFrom_sorted|].
  eapply Forall_impl; [apply lineOffsetsFrom_bounds|]. simpl. lia.
Qed.

(** In an increasing table the entries not above [o] form a prefix. *)
Lemma filter_le_prefix L o :
  StronglySorted lt L →
  ∃ hi, L = List.filter (λ x, x <=? o) L ++ hi ∧ Forall (λ x, o < x) hi.
Proof.
  induction 1 as [|x L Hs IH Hx]; [by exists []|]. simpl.
  destruct (x <=? o) eqn:Hle.
  - destruct IH as (hi & Heq & Hhi). exists hi. split; [|done].
    simpl. by rewrite <- Heq.
  - apply Nat.leb_gt in Hle. exists (x :: L).
    assert (Forall (λ y, o < y) L) as Hall.
    { eapply Forall_impl; [exact Hx|]. simpl. lia. }
    split; [|by constructor].
    assert (List.filter (λ y, y <=? o) L = []) as ->; [|done].
    clear -Hall. induction Hall as [|y L Hy _ IH]; [done|]. simpl.
    replace (y <=? o) with false by (symmetry; apply Nat.leb_gt; lia).
    exact IH.
Qed.

(** The line chosen for an offset starts at or before it, the next line
    starts after it, and an offset that starts a line is on that line. *)
Lemma lineStart_spec doc o :
  let L := getLineOffsets doc in
  let k := length (List.filter (λ x, x <=? o) L) in
  ∃ lo, L !! (k - 1) = Some lo ∧ lo ≤ o ∧
        (∀ x, L !! (k - 1 + 1) = Some x → o < x) ∧
        (o ∈ L → lo = o).
Proof.
  intros L k.
  destruct (filter_le_prefix L o (getLineOffsets_sorted doc))
    as (hi & Heq & Hhi).
  assert (Forall (λ x, x ≤ o) (List.filter (λ x, x <=? o) L)) as Hlow.
  { apply Forall_forall. intros x Hx%list_elem_of_In%filter_In.
    apply Nat.leb_le. tauto. }
  pose proof (getLineOffsets_sorted doc) as Hsorted. fold L in Hsorted.
  assert (List.filter (λ x, x <=? o) L ≠ []) as Hne by done.
  subst k. revert Heq Hlow Hne.
  destruct (List.filter (λ x, x <=? o) L) as [|m f] using rev_ind; [done|].
  clear IHf. intros Heq Hlow _. rewrite length_app. simpl.
  replace (length f + 1 - 1) with (length f) by lia.
  apply Forall_app in Hlow as [_ Hm%Forall_inv].
  exists m. rewrite Heq. repeat split.
  - rewrite <- app_assoc. by rewrite lookup_app_r, Nat.sub_diag by lia.
  - done.
  - intros x. rewrite lookup_app_r by (rewrite length_app; simpl; lia).
    rewrite length_app. simpl. rewrite Nat.sub_diag.
    intros Hx. eapply Forall_forall in Hhi; [exact Hhi|].
    apply list_elem_of_lookup. eauto.
  - rewrite Heq in Hsorted.
    intros [[Ho|Ho%list_elem_of_singleton]%elem_of_app|Ho]%elem_of_app.
    + apply StronglySorted_app_1_l in Hsorted.
      assert (o < m); [|lia].
      eapply (StronglySorted_app_1_elem_of lt); [exact Hsorted|done|].
      by apply list_elem_of_singleton.
    + done.
    + eapply Forall_forall in Hhi; [|exact Ho]. lia.
Qed.

Lemma ensureBeforeEOL_le text o lo :
  o ≤ lo → ensureBeforeEOL text o lo = o.
Proof.
  intros Hle. destruct o as [|p]; [done|]. simpl.
  replace (lo <? S p) with false by (symmetry; apply Nat.ltb_ge; lia).
  done.
Qed.

Lemma ensureBeforeEOL_noeol text p c lo :
  text !! p = Some c → isEOL c = false →
  ensureBeforeEOL text (S p) lo = S p.
Proof. intros Hc He. simpl. by rewrite Hc, He, andb_false_r. Qed.

(** Decoding a position that [positionAt] produced gives the offset back,
    whenever the offset is not one that [positionAt] moves off a line
    terminator. *)
Lemma offsetAt_positionAt doc o :
  o ≤ length (getText doc) →
  (∀ lo, lo ≤ o → (o ∈ getLineOffsets doc → lo = o) →
         ensureBeforeEOL (getText doc) o lo = o) →
  offsetAt doc (positionAt doc o) = o.
Proof.
  intros Hlen Hens.
  destruct (lineStart_spec doc o) as (lo & Hlo & Hle & Hnext & Hmem).
  unfold positionAt, offsetAt. cbn [line character].
  rewrite (Nat.min_l o) by lia.
  rewrite !(list_lookup_total_correct _ _ _ Hlo).
  rewrite Hens by done.
  apply lookup_lt_Some in Hlo as Hlt.
  replace (length (getLineOffsets doc) <=? _) with false
    by (symmetry; apply Nat.leb_gt; lia).
  destruct (o - lo =? 0) eqn:Hz.
  { apply Nat.eqb_eq in Hz. lia. }
  replace (lo + (o - lo)) with o by lia.
  destruct (_ <? length (getLineOffsets doc)) eqn:Hn.
  - apply Nat.ltb_lt in Hn.
    destruct (lookup_lt_is_Some_2 _ _ Hn) as [x Hx].
    rewrite (list_lookup_total_correct _ _ _ Hx).
    apply Hnext in Hx. rewrite Nat.min_l by lia. by apply Hens.
  - rewrite Nat.min_l by lia. by apply Hens.
Qed.

Lemma isUpper_not_EOL c : isUpper c = true → isEOL c = false.
Proof.
  unfold isUpper, isEOL, CR, LF. intros [H1 _]%andb_prop.
  apply N.leb_le in H1. apply orb_false_intro; apply N.eqb_neq; lia.
Qed.

(** Both ends of a match survive the trip through the offset table. *)
Lemma match_start_roundtrip doc i e :
  matchAt (getText doc) i = Some e →
  offsetAt doc (positionAt doc i) = i.
Proof.
  intros Hm. pose proof (matchAt_bounds _ _ _ Hm) as [? ?].
  apply offsetAt_positionAt; [lia|]. intros lo Hle Hmem.
  destruct i as [|p]; [done|].
  destruct (lookup_lt_is_Some_2 (getText doc) p) as [c Hc]; [lia|].
  destruct (isEOL c) eqn:He; [|by eapply ensureBeforeEOL_noeol].
  apply ensureBeforeEOL_le. rewrite Hmem; [done|].
  destruct (matchAt_upper _ _ _ (S p) Hm) as (u & Hu & Uu); [lia..|].
  apply isUpper_not_EOL in Uu.
  unfold getLineOffsets. right.
  replace (S p) with (0 + p + 1) by lia.
  eapply lineOffsetsFrom_elem; [exact Hc|].
  replace (S p) with (0 + p + 1) in Hu by lia. simpl in Hu.
  replace (p + 1) with (S p) in Hu by lia. rewrite Hu.
  unfold endsLine. unfold isEOL in *.
  apply orb_false_elim in Uu as [_ ->]. rewrite andb_true_r.
  by rewrite orb_comm.
Qed.

Lemma match_end_roundtrip doc i e :
  matchAt (getText doc) i = Some e →
  offsetAt doc (positionAt doc e) = e.
Proof.
  intros Hm. pose proof (matchAt_bounds _ _ _ Hm) as [? ?].
  apply offsetAt_positionAt; [lia|]. intros lo Hle Hmem.
  destruct e as [|p]; [done|].
  destruct (matchAt_upper _ _ _ p Hm) as (u & Hu & Uu); [lia..|].
  eapply ensureBeforeEOL_noeol; [exact Hu|]. by apply isUpper_not_EOL.
Qed.
End offsets.

(** * The findings of the validator *)

Section findings.
Implicit Types (s : Server) (D : TextDocument) (S : StrudelSettings).
Implicit Types (text : jsstring) (i n e : nat).

Lemma matchesIn_elem text n i m :
  m ∈ matchesIn n text i →
  i ≤ m.1 ∧ m.1 < i + n ∧ matchAt text m.1 = Some m.2.
Proof.
  revert i. induction n as [|n IH]; intros i; simpl.
  { by intros ?%elem_of_nil. }
  destruct (matchAt text i) as [e|] eqn:Hm.
  - intros [->|(? & ? & ?)%IH]%elem_of_cons; simpl; (split; [lia|]);
      (split; [lia|done]).
  - intros (? & ? & ?)%IH. split; [lia|]. split; [lia|done].
Qed.

Lemma matchesIn_sorted text n i : StronglySorted leftOf (matchesIn n text i).
Proof.
  revert i. induction n as [|n IH]; intros i; simpl; [constructor|].
  destruct (matchAt text i) as [e|] eqn:Hm; [|apply IH].
  constructor; [apply IH|]. apply Forall_forall. intros m Hin.
  apply matchesIn_elem in Hin as (Hi & _ & Hm').
  unfold leftOf. simpl.
  destruct (decide (m.1 ≤ e)); [|lia].
  rewrite (matchAt_inside text i e m.1) in Hm' by (done || lia). done.
Qed.

Lemma substring_length text i e :
  i ≤ e → e ≤ length text → length (substring text i e) = e - i.
Proof. intros. unfold substring. rewrite length_take, length_drop. lia. Qed.

Lemma substring_upper text i e :
  matchAt text i = Some e →
  Forall (λ c, isUpper c = true) (substring text i e).
Proof.
  intros Hm. apply Forall_lookup. intros p c Hc. unfold substring in Hc.
  apply lookup_take_Some in Hc as [Hc Hp]. rewrite lookup_drop in Hc.
  pose proof (matchAt_bounds _ _ _ Hm) as [? ?].
  destruct (matchAt_upper _ _ _ (i + p) Hm) as (c' & Hc' & Uc); [lia..|].
  congruence.
Qed.

(** The range of the finding of a match decodes to the match. *)
Lemma decode_diagnosticOf s D m :
  matchAt (getText D) m.1 = Some m.2 →
  decode D (diagnosticOf s D m) = m.
Proof.
  destruct m as [i e]. simpl. intros Hm.
  pose proof (matchAt_bounds _ _ _ Hm) as [? ?].
  unfold decode, diagnosticOf, errorDiagnostic.
  cbn [range start end_ index matched fst snd].
  rewrite substring_length by lia.
  replace (i + (e - i)) with e by lia.
  by erewrite match_start_roundtrip, match_end_roundtrip.
Qed.

Lemma decode_findings s D ms :
  Forall (λ m, matchAt (getText D) m.1 = Some m.2) ms →
  map (decode D) (map (diagnosticOf s D) ms) = ms.
Proof.
  induction 1 as [|m ms Hm _ IH]; [done|]. simpl.
  by rewrite decode_diagnosticOf, IH.
Qed.

Lemma allMatches_matchAt text :
  Forall (λ m, matchAt text m.1 = Some m.2) (allMatches text).
Proof. apply Forall_forall. intros m Hm%matchesIn_elem. tauto. Qed.

Lemma take_allMatches_matchAt text n :
  Forall (λ m, matchAt text m.1 = Some m.2) (take n (allMatches text)).
Proof. apply Forall_take, allMatches_matchAt. Qed.
End findings.

(** * The session *)

Section session.
Implicit Types (s : Server) (u : jsstring) (e : Event).
Implicit Types (peer : nat → Settled StrudelSettings) (trace : list Event).

Lemma run_snoc peer trace e s :
  run peer (trace ++ [e]) s = handle peer e (run peer trace s).
Proof. unfold run. by rewrite foldl_app. Qed.

Lemma getProp_field (v : JsValue) name :
  v ≠ JUndefined → v ≠ JNull → getProp v name = Some (field v name).
Proof. intros Hu Hn. unfold field. by destruct v. Qed.

Lemma getProp_truthy (v : JsValue) name :
  truthy v = true → getProp v name = Some (field v name).
Proof. intros Hv. apply getProp_field; by intros ->. Qed.

Lemma configurationSupport_spec (caps : JsValue) :
  caps ≠ JUndefined → caps ≠ JNull →
  ∃ v, configurationSupport caps = Some v ∧
       truthy v = truthy (field caps "workspace")
                  && truthy (field (field caps "workspace") "configuration").
Proof.
  intros Hu Hn. unfold configurationSupport, andThen.
  rewrite !(getProp_field caps) by done. cbn [mbind option_bind].
  destruct (truthy (field caps "workspace")) eqn:Hw; [|by eauto].
  rewrite getProp_truthy by done. cbn [mbind option_bind]. eauto.
Qed.

Lemma workspaceFolderSupport_spec (caps : JsValue) :
  caps ≠ JUndefined → caps ≠ JNull →
  ∃ v, workspaceFolderSupport caps = Some v ∧
       truthy v =
         truthy (field caps "workspace")
         && truthy (field (field caps "workspace") "workspaceFolders").
Proof.
  intros Hu Hn. unfold workspaceFolderSupport, andThen.
  rewrite !(getProp_field caps) by done. cbn [mbind option_bind].
  destruct (truthy (field caps "workspace")) eqn:Hw; [|by eauto].
  rewrite getProp_truthy by done. cbn [mbind option_bind]. eauto.
Qed.

Lemma relatedInformationSupport_spec (caps : JsValue) :
  caps ≠ JUndefined → caps ≠ JNull →
  ∃ v, relatedInformationSupport caps = Some v ∧
       truthy v =
         truthy (field caps "textDocument")
         && truthy (field (field caps "textDocument") "publishDiagnostics")
         && truthy (field (field (field caps "textDocument")
                             "publishDiagnostics") "relatedInformation").
Proof.
  intros Hu Hn. unfold relatedInformationSupport, andThen.
  rewrite !(getProp_field caps) by done. cbn [mbind option_bind].
  destruct (truthy (field caps "textDocument")) eqn:Ht; [|by eauto].
  rewrite !(getProp_truthy (field caps "textDocument")) by done.
  cbn [mbind option_bind].
  destruct (truthy (field (field caps "textDocument")
                      "publishDiagnostics")) eqn:Hp; [|by eauto].
  rewrite getProp_truthy by done. eauto.
Qed.

(** The initialization handler touches nothing but the three flags. *)
Lemma onInitialize_frame params s :
  let s' := (onInitialize params s).1 in
  documentSettings s' = documentSettings s ∧ sent s' = sent s ∧
  globalSettings s' = globalSettings s ∧ documents s' = documents s.
Proof.
  unfold onInitialize.
  destruct (configurationSupport _); [|done].
  destruct (workspaceFolderSupport _); [|done].
  by destruct (relatedInformationSupport _).
Qed.

Lemma getDocumentSettings_fallback u s :
  hasConfigurationCapability s = false →
  getDocumentSettings u s = (PromiseResolve (globalSettings s), s).
Proof. intros Hc. unfold getDocumentSettings. by rewrite Hc. Qed.

Lemma getDocumentSettings_hit u s t :
  hasConfigurationCapability s = true →
  documentSettings s !! u = Some t →
  getDocumentSettings u s = (t, s).
Proof. intros Hc Hu. unfold getDocumentSettings. by rewrite Hc, Hu. Qed.

Lemma getDocumentSettings_miss u s :
  hasConfigurationCapability s = true →
  documentSettings s !! u = None →
  getDocumentSettings u s =
    (ConfigurationResponse (length (sent s)),
     setDocumentSettings
       (<[u := ConfigurationResponse (length (sent s))]>
          (documentSettings s))
       (send (ConfigurationRequest u (js "strudelLanguageServer")) s)).
Proof. intros Hc Hu. unfold getDocumentSettings. by rewrite Hc, Hu. Qed.

Lemma onDidChangeConfiguration_pull change s :
  hasConfigurationCapability s = true →
  onDidChangeConfiguration change s =
    send DiagnosticsRefresh (setDocumentSettings ∅ s).
Proof. intros Hc. unfold onDidChangeConfiguration. by rewrite Hc. Qed.

Lemma onDidChangeConfiguration_global change s :
  hasConfigurationCapability s = false →
  onDidChangeConfiguration change s =
    match settings change with
    | SettingsNullish => s
    | SettingsValue section =>
        send DiagnosticsRefresh
          (setGlobalSettings (orDefaultSettings section) s)
    end.
Proof.
  intros Hc. unfold onDidChangeConfiguration. rewrite Hc.
  by destruct (settings change).
Qed.

Lemma getDocumentSettings_flag u s :
  hasConfigurationCapability (getDocumentSettings u s).2 =
  hasConfigurationCapability s.
Proof.
  unfold getDocumentSettings.
  destruct (hasConfigurationCapability s) eqn:Hc; simpl; [|done].
  by destruct (documentSettings s !! u).
Qed.

Lemma getDocumentSettings_global u s :
  globalSettings (getDocumentSettings u s).2 = globalSettings s.
Proof.
  unfold getDocumentSettings.
  destruct (hasConfigurationCapability s); simpl; [|done].
  by destruct (documentSettings s !! u).
Qed.

Lemma getDocumentSettings_unused u s :
  cacheUnused s → cacheUnused (getDocumentSettings u s).2.
Proof.
  unfold cacheUnused, getDocumentSettings.
  destruct (hasConfigurationCapability s) eqn:Hc; simpl; [|by rewrite Hc].
  destruct (documentSettings s !! u); simpl; by rewrite ?Hc.
Qed.

Lemma getDocumentSettings_pulls u s :
  cacheFromPulls s → cacheFromPulls (getDocumentSettings u s).2.
Proof.
  unfold getDocumentSettings. intros Hs.
  destruct (hasConfigurationCapability s); simpl; [|done].
  destruct (documentSettings s !! u) eqn:Hu; simpl; [done|].
  intros u' t. simpl. rewrite lookup_insert.
  destruct (decide (u = u')) as [<-|Hne].
  - intros [= <-]. eexists. split; [done|].
    by rewrite lookup_app_r, Nat.sub_diag.
  - intros (n & -> & Hn)%Hs. exists n. split; [done|].
    by apply lookup_app_l_Some.
Qed.

Lemma onDiagnostics_state peer u s :
  (onDiagnostics peer u s).2 =
  match documents s !! u with
  | Some doc => (getDocumentSettings (uri doc) s).2
  | None => s
  end.
Proof.
  unfold onDiagnostics, validateTextDocument.
  destruct (documents s !! u) as [doc|]; [|done].
  destruct (getDocumentSettings (uri doc) s) as [t s']. simpl.
  destruct (await peer t); [|done..].
  by destruct (validate s' doc a).
Qed.

(** Outside initialization the flag is not assigned. *)
Lemma handle_flag peer e s :
  isInitialize e = false →
  hasConfigurationCapability (handle peer e s) =
  hasConfigurationCapability s.
Proof.
  destruct e; simpl; try done; intros _.
  - unfold onInitialized.
    destruct (hasConfigurationCapability s) eqn:Hc; simpl;
      destruct (hasWorkspaceFolderCapability s); simpl; done.
  - unfold onDidChangeConfiguration.
    destruct (hasConfigurationCapability s) eqn:Hc; [done|].
    destruct (settings change); simpl; done.
  - unfold didChange. by destruct (documents s !! uri doc).
  - unfold didClose. by destruct (documents s !! textDocumentUri).
  - rewrite onDiagnostics_state.
    destruct (documents s !! textDocumentUri); [|done].
    apply getDocumentSettings_flag.
Qed.

Lemma handle_unused peer e s :
  isInitialize e = false → cacheUnused s → cacheUnused (handle peer e s).
Proof.
  intros He Hs. unfold cacheUnused. rewrite handle_flag by done.
  intros Hc. specialize (Hs Hc).
  destruct e; simpl; try done.
  - unfold onInitialized. rewrite Hc. simpl.
    by destruct (hasWorkspaceFolderCapability s).
  - unfold onDidChangeConfiguration. rewrite Hc.
    by destruct (settings change).
  - unfold didChange. by destruct (documents s !! uri doc).
  - unfold didClose. destruct (documents s !! textDocumentUri); [|done].
    simpl. rewrite Hs. apply delete_empty.
  - rewrite onDiagnostics_state.
    destruct (documents s !! textDocumentUri); [|done].
    unfold getDocumentSettings. by rewrite Hc.
Qed.

Lemma send_pulls msg s : cacheFromPulls s → cacheFromPulls (send msg s).
Proof.
  intros Hs u t (n & -> & Hn)%Hs. exists n. split; [done|].
  by apply lookup_app_l_Some.
Qed.

Lemma handle_pulls peer e s :
  isInitialize e = false → cacheFromPulls s →
  cacheFromPulls (handle peer e s).
Proof.
  intros He Hs. destruct e; simpl; try done.
  - unfold onInitialized.
    destruct (hasConfigurationCapability s);
      destruct (hasWorkspaceFolderCapability _) eqn:Hw; simpl in Hw;
      rewrite ?Hw; auto using send_pulls.
  - unfold onDidChangeConfiguration.
    destruct (hasConfigurationCapability s).
    + apply send_pulls. by intros u t ?.
    + destruct (settings change); simpl; [done|]. by apply send_pulls.
  - unfold didChange. by destruct (documents s !! uri doc).
  - unfold didClose.
    destruct (documents s !! textDocumentUri) as [doc|]; [|done].
    intros u t. simpl. intros [_ Hu]%lookup_delete_Some. by apply Hs.
  - by apply send_pulls.
  - rewrite onDiagnostics_state.
    destruct (documents s !! textDocumentUri); [|done].
    by apply getDocumentSettings_pulls.
Qed.

Lemma handle_global peer e s :
  isInitialize e = false → isDidChangeConfiguration e = false →
  globalSettings (handle peer e s) = globalSettings s.
Proof.
  destruct e; simpl; try done; intros _ _.
  - unfold onInitialized.
    destruct (hasConfigurationCapability s);
      destruct (hasWorkspaceFolderCapability _); done.
  - unfold didChange. by destruct (documents s !! uri doc).
  - unfold didClose. by destruct (documents s !! textDocumentUri).
  - rewrite onDiagnostics_state.
    destruct (documents s !! textDocumentUri); [|done].
    apply getDocumentSettings_global.
Qed.

(** Only initialization and configuration changes touch the flag and the
    global settings. *)
Lemma run_keepsSettings peer trace s :
  forallb keepsSettings trace = true →
  hasConfigurationCapability (run peer trace s) =
    hasConfigurationCapability s ∧
  globalSettings (run peer trace s) = globalSettings s.
Proof.
  induction trace as [|e trace IH] using rev_ind; intros Hall; [done|].
  rewrite forallb_app in Hall. apply andb_prop in Hall as [Htr He].
  simpl in He. rewrite andb_true_r in He. unfold keepsSettings in He.
  apply andb_prop in He as [Hi Hd].
  apply negb_true_iff in Hi. apply negb_true_iff in Hd.
  destruct (IH Htr) as [Hc Hg]. rewrite run_snoc.
  by rewrite handle_flag, handle_global.
Qed.

(** Before the initialization request the session has no capability and
    an empty cache. *)
Lemma run_uninitialized peer trace :
  forallb (λ e, negb (isInitialize e)) trace = true →
  let s := run peer trace initialServer in
  hasConfigurationCapability s = false ∧ cacheUnused s ∧ cacheFromPulls s.
Proof.
  induction trace as [|e trace IH] using rev_ind; intros Hall.
  { simpl. split; [done|]. split; [done|]. by intros u t ?. }
  rewrite forallb_app in Hall. apply andb_prop in Hall as [Htr He].
  simpl in He. rewrite andb_true_r in He. apply negb_true_iff in He.
  destruct (IH Htr) as (Hc & Hu & Hp). simpl. rewrite run_snoc.
  rewrite handle_flag by done. split; [done|].
  split; [by apply handle_unused|by apply handle_pulls].
Qed.

Lemma initializedOnce_snoc trace e :
  initializedOnce (trace ++ [e]) →
  initializedOnce trace ∧
  (isInitialize e = true →
   forallb (λ e, negb (isInitialize e)) trace = true).
Proof.
  unfold initializedOnce. rewrite List.filter_app, length_app. simpl.
  destruct (isInitialize e); simpl; intros Hlen; (split; [lia|]); [|done].
  intros _. apply forallb_forall. intros x Hx.
  destruct (isInitialize x) eqn:Hi; [|done].
  assert (In x (List.filter isInitialize trace)) as Hin
    by (apply filter_In; done).
  destruct (List.filter isInitialize trace); [done|]. simpl in Hlen. lia.
Qed.

(** The two invariants of the settings cache hold in every state of a
    session. *)
Lemma reachable_invariant s :
  reachable s → cacheUnused s ∧ cacheFromPulls s.
Proof.
  intros (peer & trace & Honce & ->).
  induction trace as [|e trace IH] using rev_ind.
  { split; [done|]. by intros u t ?. }
  apply initializedOnce_snoc in Honce as [Honce Hfirst].
  rewrite run_snoc. destruct (isInitialize e) eqn:He.
  - destruct (run_uninitialized peer trace (Hfirst eq_refl))
      as (Hc & Hu & Hp).
    destruct e; try done. simpl.
    destruct (onInitialize_frame params (run peer trace initialServer))
      as (Hds & Hsent & _ & _).
    split.
    + intros _. rewrite Hds. by apply Hu.
    + intros u t. rewrite Hds, Hsent. apply Hp.
  - destruct (IH Honce) as [Hu Hp].
    split; [by apply handle_unused|by apply handle_pulls].
Qed.
End session.

(** * The properties of the specification *)

(** C1. For every document and settings with a non-negative integer cap,
    the validator returns, it returns at most [maxErrorCount] findings, and
    their number is the minimum of the cap and of the number of whole-word
    runs of two or more uppercase letters in the text. *)
Theorem validate_count (s : Server) (D : TextDocument) (S : StrudelSettings) :
  (0 ≤ maxErrorCount S)%Z →
  ∃ findings,
    validate s D S = Some findings ∧
    (Z.of_nat (length findings) ≤ maxErrorCount S)%Z ∧
    Z.of_nat (length findings) =
      Z.min (Z.of_nat (matchCount (getText D))) (maxErrorCount S).
Proof.
  intros Hcap. rewrite validate_spec. eexists. split; [done|].
  rewrite length_map, length_take, allMatches_matchCount. lia.
Qed.

Lemma validate_count_witness :
  (0 ≤ maxErrorCount {| maxErrorCount := 2 |})%Z ∧
  ∃ findings,
    validate initialServer (scenarioDocument "AB CD EF")
      {| maxErrorCount := 2 |} = Some findings ∧
    (Z.of_nat (length findings) ≤ 2)%Z ∧
    Z.of_nat (length findings) =
      Z.min (Z.of_nat (matchCount (js "AB CD EF"))) 2.
Proof.
  split; [simpl; lia|].
  apply (validate_count initialServer (scenarioDocument "AB CD EF")
           {| maxErrorCount := 2 |}).
  simpl. lia.
Defined.

(** C2. The findings come in the order of their matches in the text, left
    to right and without overlap: decoded through the offset table of the
    document, their ranges are the first matches of the pattern, each from
    the first character of the matched word to one past its last, and the
    message quotes exactly that word. *)
Theorem validate_order_and_ranges (s : Server) (D : TextDocument)
    (S : StrudelSettings) :
  ∃ findings,
    validate s D S = Some findings ∧
    StronglySorted leftOf (map (decode D) findings) ∧
    map (decode D) findings =
      take (Z.to_nat (maxErrorCount S)) (allMatches (getText D)) ∧
    ∀ f, f ∈ findings →
      matchAt (getText D) (decode D f).1 = Some (decode D f).2 ∧
      (decode D f).1 < (decode D f).2 ≤ length (getText D) ∧
      Forall (λ c, isUpper c = true)
        (substring (getText D) (decode D f).1 (decode D f).2) ∧
      message f =
        substring (getText D) (decode D f).1 (decode D f).2
        ++ js " is all uppercase.".
Proof.
  rewrite validate_spec. eexists. split; [done|].
  rewrite decode_findings by apply take_allMatches_matchAt.
  split; [|split; [done|]].
  - eapply StronglySorted_app_1_l. rewrite take_drop. apply matchesIn_sorted.
  - intros f (m & -> & Hm)%list_elem_of_fmap.
    pose proof (take_allMatches_matchAt (getText D)
                  (Z.to_nat (maxErrorCount S))) as Hall.
    eapply Forall_forall in Hall; [|exact Hm].
    rewrite decode_diagnosticOf by done.
    pose proof (matchAt_bounds _ _ _ Hall) as [? ?].
    split; [done|]. split; [lia|]. split; [by apply substring_upper|done].
Qed.

(** C3. A diagnostics request for a URI that is not in the document store
    is answered with a full report without items; nothing is awaited and
    nothing fails. *)
Theorem diagnostics_unknown_document
    (peer : nat → Settled StrudelSettings) (u : jsstring) (s : Server) :
  documents s !! u = None →
  onDiagnostics peer u s = (Fulfilled {| kind := Full; items := [] |}, s).
Proof. intros Hu. unfold onDiagnostics. by rewrite Hu. Qed.

Lemma diagnostics_unknown_document_witness :
  documents initialServer !! js "file:///unknown.str" = None ∧
  onDiagnostics (λ _, Rejected) (js "file:///unknown.str") initialServer =
    (Fulfilled {| kind := Full; items := [] |}, initialServer).
Proof.
  split; [reflexivity|].
  apply (diagnostics_unknown_document (λ _, Rejected)
           (js "file:///unknown.str") initialServer).
  reflexivity.
Defined.

(** C4. With configuration pull supported, two lookups for a URI that is
    not cached send one configuration request between them and return the
    same handle (whether or not the peer has answered in the meantime);
    after a configuration-change notification the next lookup for the URI
    sends a new request and returns a new handle. *)
Theorem settings_cache_single_pull (u : jsstring) (s : Server) :
  hasConfigurationCapability s = true →
  documentSettings s !! u = None →
  let request := ConfigurationRequest u (js "strudelLanguageServer") in
  let first := getDocumentSettings u s in
  let second := getDocumentSettings u first.2 in
  first.1 = ConfigurationResponse (length (sent s)) ∧
  second.1 = first.1 ∧
  sent first.2 = sent s ++ [request] ∧
  sent second.2 = sent s ++ [request] ∧
  ∀ change,
    let s' := onDidChangeConfiguration change second.2 in
    let third := getDocumentSettings u s' in
    third.1 = ConfigurationResponse (length (sent s')) ∧
    third.1 ≠ first.1 ∧
    sent third.2 = sent s' ++ [request].
Proof.
  intros Hc Hu request first second.
  subst first second. rewrite (getDocumentSettings_miss u s Hc Hu).
  cbn [fst snd].
  erewrite getDocumentSettings_hit;
    [|done|cbn [documentSettings setDocumentSettings]; apply lookup_insert_eq].
  cbn [fst snd sent setDocumentSettings send].
  repeat split; try done; intros;
    rewrite onDidChangeConfiguration_pull by done;
    rewrite getDocumentSettings_miss by done; try done.
  cbn [fst sent send setDocumentSettings]. intros [= Heq]. revert Heq.
  rewrite !length_app. simpl. lia.
Qed.

Lemma settings_cache_single_pull_witness :
  hasConfigurationCapability pullingServer = true ∧
  documentSettings pullingServer !! scenarioUri = None ∧
  (getDocumentSettings scenarioUri
     (getDocumentSettings scenarioUri pullingServer).2).1 =
    (getDocumentSettings scenarioUri pullingServer).1 ∧
  sent (getDocumentSettings scenarioUri
          (getDocumentSettings scenarioUri pullingServer).2).2 =
    [ConfigurationRequest scenarioUri (js "strudelLanguageServer")].
Proof.
  assert (hasConfigurationCapability pullingServer = true) as Hc
    by reflexivity.
  assert (documentSettings pullingServer !! scenarioUri = None) as Hu
    by reflexivity.
  destruct (settings_cache_single_pull scenarioUri pullingServer Hc Hu)
    as (_ & H2 & _ & H4 & _).
  split; [exact Hc|]. split; [exact Hu|]. split; [exact H2|exact H4].
Defined.

(** C5. Without the related-information capability no finding has a
    related-information field; with it, every finding has two entries, both
    located at the finding's own range in the document, with the two fixed
    messages. *)
Theorem validate_relatedInformation (s : Server) (D : TextDocument)
    (S : StrudelSettings) :
  ∃ findings,
    validate s D S = Some findings ∧
    ∀ f, f ∈ findings →
      relatedInformation f =
        if hasDiagnosticRelatedInformationCapability s
        then Some [
          {| location := {| loc_uri := uri D; loc_range := range f |};
             info_message := js "Spelling matters" |};
          {| location := {| loc_uri := uri D; loc_range := range f |};
             info_message := js "Especially for names" |} ]
        else None.
Proof.
  rewrite validate_spec. eexists. split; [done|].
  intros f (m & -> & _)%list_elem_of_fmap.
  unfold diagnosticOf, errorDiagnostic. simpl.
  by destruct (hasDiagnosticRelatedInformationCapability s).
Qed.

(** C6, as the code has it.  For every capabilities object the negotiation
    succeeds, and each flag is the truthiness of the chain of fields it is
    read from: a flag is off when one of its fields is absent, falsy or
    sits in a value that is not an object, and on for a truthy leaf, boolean
    or not.  In particular, without a [workspace] field the workspace-folder
    and configuration flags are off, and without one of [textDocument],
    [publishDiagnostics] and [relatedInformation] the related-information
    flag is off. *)
Theorem onInitialize_flags (caps : JsValue) (s : Server) :
  caps ≠ JUndefined → caps ≠ JNull →
  let workspace := field caps "workspace" in
  let textDocument := field caps "textDocument" in
  let publishDiagnostics := field textDocument "publishDiagnostics" in
  let r := onInitialize {| capabilities := caps |} s in
  hasConfigurationCapability r.1 =
    truthy workspace && truthy (field workspace "configuration") ∧
  hasWorkspaceFolderCapability r.1 =
    truthy workspace && truthy (field workspace "workspaceFolders") ∧
  hasDiagnosticRelatedInformationCapability r.1 =
    truthy textDocument && truthy publishDiagnostics
    && truthy (field publishDiagnostics "relatedInformation") ∧
  r.2 = Some {| workspaceFoldersSupported :=
                  hasWorkspaceFolderCapability r.1 |} ∧
  (workspace = JUndefined →
   hasWorkspaceFolderCapability r.1 = false ∧
   hasConfigurationCapability r.1 = false) ∧
  (textDocument = JUndefined ∨ publishDiagnostics = JUndefined ∨
   field publishDiagnostics "relatedInformation" = JUndefined →
   hasDiagnosticRelatedInformationCapability r.1 = false).
Proof.
  intros Hu Hn. cbv zeta. unfold onInitialize. cbn [capabilities].
  destruct (configurationSupport_spec caps Hu Hn) as (v1 & -> & H1).
  destruct (workspaceFolderSupport_spec caps Hu Hn) as (v2 & -> & H2).
  destruct (relatedInformationSupport_spec caps Hu Hn) as (v3 & -> & H3).
  cbn [fst snd setCapabilities hasConfigurationCapability
       hasWorkspaceFolderCapability
       hasDiagnosticRelatedInformationCapability].
  rewrite H1, H2, H3. split; [done|]. split; [done|]. split; [done|].
  split; [done|]. split; [by intros ->|].
  intros [->|[->| ->]]; by rewrite ?andb_false_r.
Qed.

Lemma onInitialize_flags_witness :
  emptyCapabilities ≠ JUndefined ∧ emptyCapabilities ≠ JNull ∧
  hasWorkspaceFolderCapability
    (onInitialize {| capabilities := emptyCapabilities |} initialServer).1
    = false ∧
  hasConfigurationCapability
    (onInitialize {| capabilities := emptyCapabilities |} initialServer).1
    = false ∧
  (onInitialize {| capabilities := emptyCapabilities |} initialServer).2
    = Some {| workspaceFoldersSupported := false |}.
Proof.
  assert (emptyCapabilities ≠ JUndefined) as Hu by discriminate.
  assert (emptyCapabilities ≠ JNull) as Hn by discriminate.
  destruct (onInitialize_flags emptyCapabilities initialServer Hu Hn)
    as (_ & _ & _ & Hr & Habsent & _).
  destruct (Habsent eq_refl) as [Hw Hc].
  split; [exact Hu|]. split; [exact Hn|]. split; [exact Hw|].
  split; [exact Hc|]. rewrite Hr, Hw. reflexivity.
Defined.

(** C6, as stated, fails: a [workspaceFolders] field that is not a boolean
    is malformed, and the flag is recorded as on. *)
Lemma negotiate_malformed_counterexample :
  (∀ b, field (field malformedCapabilities "workspace") "workspaceFolders"
        ≠ JBool b) ∧
  hasWorkspaceFolderCapability
    (onInitialize {| capabilities := malformedCapabilities |} initialServer).1
    ≠ false.
Proof. split; [intros b|]; discriminate. Qed.

(** C7.  The validator on ["let ABC = 1;"] with the default settings: one
    finding, for the word at offsets 4 to 7, with the message and the source
    of the scenario.  Its severity is the editor API's [Warning], whose
    number the protocol reads as [Error]. *)
Theorem scenario1_finding :
  validate initialServer (scenarioDocument "let ABC = 1;") defaultSettings =
    Some [ {| severity := vscode.DiagnosticSeverity.Warning;
              range := {| start := {| line := 0; character := 4 |};
                          end_ := {| line := 0; character := 7 |} |};
              message := js "ABC is all uppercase.";
              source := js "strudel";
              relatedInformation := None |} ] ∧
  maxErrorCount defaultSettings = 100%Z ∧
  offsetAt (scenarioDocument "let ABC = 1;") {| line := 0; character := 4 |}
    = 4 ∧
  offsetAt (scenarioDocument "let ABC = 1;") {| line := 0; character := 7 |}
    = 7 ∧
  vscode.DiagnosticSeverity.Warning = lsp.DiagnosticSeverity.Error ∧
  vscode.DiagnosticSeverity.Warning ≠ lsp.DiagnosticSeverity.Warning.
Proof. repeat split; try reflexivity. discriminate. Qed.

(** C8. Resolving a completion item whose [data] is neither 1 nor 2 returns
    the item as it was: no property is added, none is changed. *)
Theorem resolve_unrecognized (item : CompletionItem) :
  item !! "data" ≠ Some (JNumber 1) →
  item !! "data" ≠ Some (JNumber 2) →
  onCompletionResolve item = item.
Proof.
  intros H1 H2. unfold onCompletionResolve.
  repeat case_match; subst; done.
Qed.

Lemma resolve_unrecognized_witness :
  foreignItem !! "data" ≠ Some (JNumber 1) ∧
  foreignItem !! "data" ≠ Some (JNumber 2) ∧
  onCompletionResolve foreignItem = foreignItem.
Proof.
  assert (foreignItem !! "data" = Some (JNumber 3)) as Hd by reflexivity.
  assert (foreignItem !! "data" ≠ Some (JNumber 1)) as H1
    by (rewrite Hd; discriminate).
  assert (foreignItem !! "data" ≠ Some (JNumber 2)) as H2
    by (rewrite Hd; discriminate).
  split; [exact H1|]. split; [exact H2|].
  exact (resolve_unrecognized foreignItem H1 H2).
Defined.

(** C9. In every state of a session the configuration-pull flag decides
    where settings come from.  Flag off: the per-document cache is empty
    and every lookup returns the global settings, leaving the state as it
    is.  Flag on: every lookup returns the pending answer of a
    configuration request sent for that URI, either the cached one or one
    sent by this very lookup; the global settings are not consulted. *)
Theorem settings_authority (s : Server) :
  reachable s →
  if hasConfigurationCapability s then
    ∀ u, ∃ n,
      (getDocumentSettings u s).1 = ConfigurationResponse n ∧
      sent (getDocumentSettings u s).2 !! n =
        Some (ConfigurationRequest u (js "strudelLanguageServer")) ∧
      ((documentSettings s !! u = Some (ConfigurationResponse n) ∧
        (getDocumentSettings u s).2 = s) ∨
       (documentSettings s !! u = None ∧ n = length (sent s) ∧
        sent (getDocumentSettings u s).2 =
          sent s ++ [ConfigurationRequest u (js "strudelLanguageServer")]))
  else
    documentSettings s = ∅ ∧
    ∀ u, getDocumentSettings u s = (PromiseResolve (globalSettings s), s).
Proof.
  intros [Hunused Hpulls]%reachable_invariant.
  destruct (hasConfigurationCapability s) eqn:Hc.
  - intros u. destruct (documentSettings s !! u) as [t|] eqn:Hu.
    + destruct (Hpulls u t Hu) as (n & -> & Hn).
      rewrite (getDocumentSettings_hit u s _ Hc Hu). exists n.
      split; [done|]. split; [done|]. by left.
    + rewrite (getDocumentSettings_miss u s Hc Hu).
      exists (length (sent s)). split; [done|].
      cbn [fst snd sent setDocumentSettings send].
      split; [by rewrite lookup_app_r, Nat.sub_diag|]. by right.
  - split; [by apply Hunused|].
    intros u. by apply getDocumentSettings_fallback.
Qed.

Lemma settings_authority_witness :
  reachable sampleSession ∧
  if hasConfigurationCapability sampleSession then
    ∀ u, ∃ n,
      (getDocumentSettings u sampleSession).1 = ConfigurationResponse n ∧
      sent (getDocumentSettings u sampleSession).2 !! n =
        Some (ConfigurationRequest u (js "strudelLanguageServer")) ∧
      ((documentSettings sampleSession !! u = Some (ConfigurationResponse n) ∧
        (getDocumentSettings u sampleSession).2 = sampleSession) ∨
       (documentSettings sampleSession !! u = None ∧
        n = length (sent sampleSession) ∧
        sent (getDocumentSettings u sampleSession).2 =
          sent sampleSession
          ++ [ConfigurationRequest u (js "strudelLanguageServer")]))
  else
    documentSettings sampleSession = ∅ ∧
    ∀ u, getDocumentSettings u sampleSession =
           (PromiseResolve (globalSettings sampleSession), sampleSession).
Proof.
  assert (reachable sampleSession) as Hr.
  { exists (λ _, Pending), sampleTrace. split; [|reflexivity].
    unfold initializedOnce. simpl. lia. }
  split; [exact Hr|]. exact (settings_authority sampleSession Hr).
Defined.

(** C10, as the code has it.  Without configuration pull, a
    configuration-change notification whose settings value is not
    [undefined] or [null] sets the global settings to the section it
    carries when that is a settings object, and to the default settings
    [{ maxErrorCount: 100 }] when the section is missing or falsy; it asks
    the peer to refresh; and from then on (until the next such
    notification) every lookup, for any URI, returns that value. *)
Theorem configuration_change_global (section : SettingsSection) (s : Server) :
  hasConfigurationCapability s = false →
  let g := match section with
           | SectionObject payload => payload
           | _ => {| maxErrorCount := 100 |}
           end in
  let s' := onDidChangeConfiguration
              {| settings := SettingsValue section |} s in
  globalSettings s' = g ∧
  sent s' = sent s ++ [DiagnosticsRefresh] ∧
  ∀ peer trace u,
    forallb keepsSettings trace = true →
    getDocumentSettings u (run peer trace s') =
      (PromiseResolve g, run peer trace s').
Proof.
  intros Hc g s'.
  assert (s' = send DiagnosticsRefresh (setGlobalSettings g s)) as Hs'.
  { subst s' g. rewrite onDidChangeConfiguration_global by done.
    by destruct section. }
  assert (globalSettings s' = g) as Hg by by rewrite Hs'.
  assert (hasConfigurationCapability s' = false) as Hc' by by rewrite Hs'.
  split; [done|]. split; [by rewrite Hs'|]. intros peer trace u Hall.
  destruct (run_keepsSettings peer trace s' Hall) as [Hflag Hglobal].
  rewrite getDocumentSettings_fallback by congruence.
  by rewrite Hglobal, Hg.
Qed.

Lemma configuration_change_global_witness :
  hasConfigurationCapability initialServer = false ∧
  globalSettings (onDidChangeConfiguration sampleChange initialServer) =
    {| maxErrorCount := 5 |} ∧
  sent (onDidChangeConfiguration sampleChange initialServer) =
    [DiagnosticsRefresh] ∧
  ∀ peer trace u,
    forallb keepsSettings trace = true →
    getDocumentSettings u
      (run peer trace (onDidChangeConfiguration sampleChange initialServer)) =
      (PromiseResolve {| maxErrorCount := 5 |},
       run peer trace (onDidChangeConfiguration sampleChange initialServer)).
Proof.
  split; [reflexivity|].
  exact (configuration_change_global
           (SectionObject {| maxErrorCount := 5 |}) initialServer eq_refl).
Defined.

(** C10, as stated, fails in a session without configuration pull whose
    global settings have a cap of 5.  A notification whose section is
    present but falsy ([false]) does not install that payload but the
    default settings; and a notification whose settings value is [null]
    carries no payload, yet the handler raises on the property read: the
    cap stays 5, not the default, and no refresh is sent. *)
Lemma configuration_change_counterexample :
  hasConfigurationCapability cappedServer = false ∧
  globalSettings cappedServer = {| maxErrorCount := 5 |} ∧
  SectionFalse ≠ SectionUndefined ∧
  globalSettings
    (onDidChangeConfiguration
       {| settings := SettingsValue SectionFalse |} cappedServer)
    = {| maxErrorCount := 100 |} ∧
  globalSettings
    (onDidChangeConfiguration {| settings := SettingsNullish |} cappedServer)
    ≠ defaultSettings ∧
  onDidChangeConfiguration {| settings := SettingsNullish |} cappedServer
    = cappedServer.
Proof. repeat split; try reflexivity; discriminate. Qed.

(** * The remaining scenarios *)

(** Scenario 2: with a cap of two, ["AB CD EF"] yields the findings of
    ["AB"] and ["CD"], in that order. *)
Example scenario2_findings :
  option_map (map (λ f, (decode (scenarioDocument "AB CD EF") f, message f)))
    (validate initialServer (scenarioDocument "AB CD EF")
       {| maxErrorCount := 2 |}) =
  Some [ ((0, 2), js "AB is all uppercase.");
         ((3, 5), js "CD is all uppercase.") ].
Proof. reflexivity. Qed.

(** Scenario 3: once a document is closed, a diagnostics request for its
    URI is answered with an empty report. *)
Lemma diagnostics_after_close
    (peer : nat → Settled StrudelSettings) (u : jsstring) (s : Server) :
  onDiagnostics peer u (didClose u s) =
    (Fulfilled {| kind := Full; items := [] |}, didClose u s).
Proof.
  assert (documents (didClose u s) !! u = None) as Hu.
  { unfold didClose. destruct (documents s !! u) as [doc|] eqn:Hdoc; [|done].
    simpl. apply lookup_delete_eq. }
  unfold onDiagnostics. by rewrite Hu.
Qed.

(** The two candidates offered by the completion handler are resolved to
    the fixed detail and documentation. *)
Example resolve_offered :
  map (λ item, (onCompletionResolve item !! "detail",
                onCompletionResolve item !! "documentation")) onCompletion =
  [ (Some (JString (js "TypeScript details")),
     Some (JString (js "TypeScript documentation")));
    (Some (JString (js "JavaScript details")),
     Some (JString (js "JavaScript documentation"))) ].
Proof. reflexivity. Qed.

(** * Further properties of the code *)

Set Warnings "-clear-no-such-hyp".

Section more_pattern.
Implicit Types (text : jsstring) (i j e n p : nat).

Lemma scan_first text n i j e p :
  scan n text i = Some (j, e) → i ≤ p → p < j → matchAt text p = None.
Proof.
  revert i. induction n as [|n IH]; intros i; simpl; [done|].
  destruct (matchAt text i) as [e'|] eqn:Hm.
  - intros [= <- <-]. lia.
  - intros Hs Hi Hp. destruct (decide (p = i)) as [->|Hne]; [done|].
    apply (IH (S i)); [done|lia..].
Qed.

Lemma scan_None_all text n i p :
  scan n text i = None → i ≤ p → p < i + n → matchAt text p = None.
Proof.
  revert i. induction n as [|n IH]; intros i; simpl; [lia|].
  destruct (matchAt text i) as [e'|] eqn:Hm; [done|].
  intros Hs Hi Hp. destruct (decide (p = i)) as [->|Hne]; [done|].
  apply (IH (S i)); [done|lia..].
Qed.

Lemma matchAt_delimited text i e :
  matchAt text i = Some e →
  isWordCharBefore text i = false ∧ isWordCharAt text e = false.
Proof.
  intros Hm. pose proof (matchAt_bounds _ _ _ Hm) as [? ?].
  pose proof Hm as (Hb & _ & _ & He)%matchAt_Some.
  destruct (matchAt_upper _ _ _ i Hm) as (c & Hc & Uc); [lia..|].
  destruct e as [|e']; [lia|].
  destruct (matchAt_upper _ _ _ e' Hm) as (d & Hd & Ud); [lia..|].
  unfold wordBoundary in *. simpl in He. unfold isWordCharAt in Hb, He at 1.
  rewrite Hc, isUpper_isWordChar in Hb by done.
  rewrite Hd, isUpper_isWordChar in He by done.
  split.
  - by destruct (isWordCharBefore text i).
  - by destruct (isWordCharAt text (S e')).
Qed.

Lemma upperRun_no_upper (s : jsstring) :
  Forall (λ c, isUpper c = false) s → upperRun s = 0.
Proof. destruct 1 as [|c s Hc _]; simpl; [done|]. by rewrite Hc. Qed.

Lemma matchAt_no_upper text i :
  Forall (λ c, isUpper c = false) text → matchAt text i = None.
Proof.
  intros Hall. unfold matchAt.
  rewrite upperRun_no_upper by by apply Forall_drop.
  by destruct (wordBoundary text i).
Qed.

Lemma matchesIn_no_upper text n i :
  Forall (λ c, isUpper c = false) text → matchesIn n text i = [].
Proof.
  intros Hall. revert i. induction n as [|n IH]; intros i; simpl; [done|].
  by rewrite matchAt_no_upper.
Qed.
End more_pattern.

(** X1. A successful [exec] returns the leftmost match at or after
    [lastIndex]: no attempt succeeds before it, it is a run of at least two
    uppercase letters, the characters around it are not word characters,
    and [lastIndex] moves to its end. *)
Theorem exec_leftmost (text : jsstring) (lastIndex : nat)
    (m : RegExpExecArray) (lastIndex' : nat) :
  exec text lastIndex = (Some m, lastIndex') →
  lastIndex ≤ index m ∧
  index m + 2 ≤ lastIndex' ≤ length text ∧
  lastIndex' = index m + length (matched m) ∧
  matched m = substring text (index m) lastIndex' ∧
  Forall (λ c, isUpper c = true) (matched m) ∧
  isWordCharBefore text (index m) = false ∧
  isWordCharAt text lastIndex' = false ∧
  ∀ p, lastIndex ≤ p → p < index m → matchAt text p = None.
Proof.
  unfold exec. destruct (length text <? lastIndex); [done|].
  destruct (scan _ text lastIndex) as [[j e]|] eqn:Hs; [|done].
  intros [= <- <-]. cbn [index matched].
  pose proof (scan_Some _ _ _ _ _ Hs) as (Hj & _ & Hm & _).
  pose proof (matchAt_bounds _ _ _ Hm) as [? ?].
  pose proof (matchAt_delimited _ _ _ Hm) as [? ?].
  rewrite substring_length by lia.
  repeat split; try done; try lia.
  - by apply substring_upper.
  - intros p ? ?. by eapply scan_first.
Qed.

Lemma exec_leftmost_witness :
  exec (js "let ABC = 1;") 0 =
    (Some {| index := 4; matched := js "ABC" |}, 7) ∧
  isWordCharBefore (js "let ABC = 1;") 4 = false ∧
  isWordCharAt (js "let ABC = 1;") 7 = false.
Proof.
  assert (exec (js "let ABC = 1;") 0 =
            (Some {| index := 4; matched := js "ABC" |}, 7)) as He
    by reflexivity.
  destruct (exec_leftmost _ _ _ _ He) as (_ & _ & _ & _ & _ & Hb & Ha & _).
  split; [exact He|]. split; [exact Hb|exact Ha].
Defined.

(** X2. [exec] returns [null] exactly when no attempt succeeds at a
    position from [lastIndex] to the end of the text (in particular when
    [lastIndex] is past the end), and it then resets [lastIndex] to 0;
    after a match [lastIndex] is the end of the match. *)
Theorem exec_null (text : jsstring) (lastIndex : nat) :
  ((exec text lastIndex).1 = None ↔
   ∀ p, lastIndex ≤ p → p ≤ length text → matchAt text p = None) ∧
  (exec text lastIndex).2 =
    match (exec text lastIndex).1 with
    | None => 0
    | Some m => index m + length (matched m)
    end.
Proof.
  unfold exec. destruct (length text <? lastIndex) eqn:Hlt.
  { apply Nat.ltb_lt in Hlt. simpl. split; [|done].
    split; [|done]. intros _ p ? ?. lia. }
  apply Nat.ltb_ge in Hlt.
  destruct (scan _ text lastIndex) as [[j e]|] eqn:Hs; cbn [fst snd].
  - pose proof (scan_Some _ _ _ _ _ Hs) as (Hj & Hn & Hm & _).
    pose proof (matchAt_bounds _ _ _ Hm) as [? ?]. cbn [index matched].
    rewrite substring_length by lia. split; [|lia].
    split; [done|]. intros Hall. rewrite Hall in Hm by lia. done.
  - split; [|done]. split; [|done]. intros _ p ? ?.
    eapply scan_None_all; [done|lia..].
Qed.

(** X3. With a cap of zero or below, the validator reports nothing,
    whatever the text. *)
Theorem validate_nonpositive_cap (s : Server) (D : TextDocument)
    (S : StrudelSettings) :
  (maxErrorCount S ≤ 0)%Z → validate s D S = Some [].
Proof.
  intros Hcap. rewrite validate_spec.
  replace (Z.to_nat (maxErrorCount S)) with 0 by lia. by rewrite take_0.
Qed.

Lemma validate_nonpositive_cap_witness :
  (maxErrorCount {| maxErrorCount := -1 |} ≤ 0)%Z ∧
  validate initialServer (scenarioDocument "AB CD EF")
    {| maxErrorCount := -1 |} = Some [].
Proof.
  split; [simpl; lia|].
  apply (validate_nonpositive_cap initialServer
           (scenarioDocument "AB CD EF") {| maxErrorCount := -1 |}).
  simpl. lia.
Defined.

(** X4. A text without any uppercase letter (the empty text included)
    yields no finding, whatever the cap. *)
Theorem validate_no_uppercase (s : Server) (D : TextDocument)
    (S : StrudelSettings) :
  Forall (λ c, isUpper c = false) (getText D) → validate s D S = Some [].
Proof.
  intros Hall. rewrite validate_spec. unfold allMatches.
  by rewrite matchesIn_no_upper, take_nil.
Qed.

Lemma validate_no_uppercase_witness :
  Forall (λ c, isUpper c = false) (getText (scenarioDocument "s(bd*2) 42")) ∧
  validate initialServer (scenarioDocument "s(bd*2) 42") defaultSettings
    = Some [].
Proof.
  assert (Forall (λ c, isUpper c = false)
            (getText (scenarioDocument "s(bd*2) 42"))) as Hall.
  { repeat constructor. }
  split; [exact Hall|].
  exact (validate_no_uppercase initialServer _ defaultSettings Hall).
Defined.

(** X5. Raising the cap only appends findings: the findings under a cap
    are a prefix of the findings under any larger cap. *)
Theorem validate_cap_monotone (s : Server) (D : TextDocument)
    (S1 S2 : StrudelSettings) :
  (maxErrorCount S1 ≤ maxErrorCount S2)%Z →
  ∃ findings1 findings2,
    validate s D S1 = Some findings1 ∧
    validate s D S2 = Some findings2 ∧
    findings1 `prefix_of` findings2.
Proof.
  intros Hle. rewrite !validate_spec. do 2 eexists.
  split; [done|]. split; [done|].
  set (l := allMatches (getText D)).
  set (n := Z.to_nat (maxErrorCount S1)).
  set (m := Z.to_nat (maxErrorCount S2)).
  assert (n ≤ m) as Hnm by lia.
  exists (map (diagnosticOf s D) (drop n (take m l))).
  rewrite <- map_app. f_equal.
  rewrite <- (take_drop n (take m l)) at 1.
  rewrite take_take. by rewrite Nat.min_l.
Qed.

Lemma validate_cap_monotone_witness :
  (maxErrorCount {| maxErrorCount := 1 |}
   ≤ maxErrorCount {| maxErrorCount := 2 |})%Z ∧
  ∃ findings1 findings2,
    validate initialServer (scenarioDocument "AB CD EF")
      {| maxErrorCount := 1 |} = Some findings1 ∧
    validate initialServer (scenarioDocument "AB CD EF")
      {| maxErrorCount := 2 |} = Some findings2 ∧
    findings1 `prefix_of` findings2.
Proof.
  split; [simpl; lia|].
  apply (validate_cap_monotone initialServer (scenarioDocument "AB CD EF")
           {| maxErrorCount := 1 |} {| maxErrorCount := 2 |}).
  simpl. lia.
Defined.

(** X6. Every finding, for every document, has the severity constant and
    the source tag of the source text, and its message is a word of two or
    more uppercase letters followed by the fixed suffix. *)
Theorem validate_fixed_fields (s : Server) (D : TextDocument)
    (S : StrudelSettings) :
  ∃ findings,
    validate s D S = Some findings ∧
    ∀ f, f ∈ findings →
      severity f = vscode.DiagnosticSeverity.Warning ∧
      source f = js "strudel" ∧
      ∃ word,
        message f = word ++ js " is all uppercase." ∧
        2 ≤ length word ∧
        Forall (λ c, isUpper c = true) word.
Proof.
  rewrite validate_spec. eexists. split; [done|].
  intros f (m & -> & Hm)%list_elem_of_fmap.
  pose proof (take_allMatches_matchAt (getText D)
                (Z.to_nat (maxErrorCount S))) as Hall.
  eapply Forall_forall in Hall; [|exact Hm].
  pose proof (matchAt_bounds _ _ _ Hall) as [? ?].
  split; [done|]. split; [done|].
  exists (substring (getText D) m.1 m.2). split; [done|].
  rewrite substring_length by lia. split; [lia|]. by apply substring_upper.
Qed.

(** X7. The validator reads nothing of the session but the
    related-information flag: two sessions give findings that agree once
    the related information is dropped, and equal findings when their flags
    agree. *)
Theorem validate_reads_flag_only (s1 s2 : Server) (D : TextDocument)
    (S : StrudelSettings) :
  ∃ findings1 findings2,
    validate s1 D S = Some findings1 ∧
    validate s2 D S = Some findings2 ∧
    map withoutRelatedInformation findings1 =
      map withoutRelatedInformation findings2 ∧
    (hasDiagnosticRelatedInformationCapability s1 =
       hasDiagnosticRelatedInformationCapability s2 →
     findings1 = findings2).
Proof.
  rewrite !validate_spec. do 2 eexists. split; [done|]. split; [done|].
  split.
  - rewrite <- !list_fmap_compose. apply list_fmap_ext. by intros _ m _.
  - intros Hflag. apply list_fmap_ext. intros _ m _.
    unfold diagnosticOf, errorDiagnostic. by rewrite Hflag.
Qed.

Section more_session.
Implicit Types (s : Server) (u : jsstring) (e : Event).
Implicit Types (peer : nat → Settled StrudelSettings) (trace : list Event).

Lemma onInitialized_frame s :
  documentSettings (onInitialized s) = documentSettings s ∧
  documents (onInitialized s) = documents s ∧
  globalSettings (onInitialized s) = globalSettings s.
Proof.
  unfold onInitialized.
  destruct (hasConfigurationCapability s);
    destruct (hasWorkspaceFolderCapability _); done.
Qed.

Lemma getDocumentSettings_documents u s :
  documents (getDocumentSettings u s).2 = documents s.
Proof.
  unfold getDocumentSettings.
  destruct (hasConfigurationCapability s); simpl; [|done].
  by destruct (documentSettings s !! u).
Qed.

Lemma getDocumentSettings_dom u s :
  dom (documentSettings (getDocumentSettings u s).2)
  ⊆ {[u]} ∪ dom (documentSettings s).
Proof.
  unfold getDocumentSettings.
  destruct (hasConfigurationCapability s); simpl; [|set_solver].
  destruct (documentSettings s !! u); simpl; [set_solver|].
  rewrite dom_insert_L. set_solver.
Qed.

(** Without the capability no handler sends a configuration request. *)
Lemma handle_quiet peer e s :
  isInitialize e = false →
  hasConfigurationCapability s = false →
  Forall (λ o, isConfigurationRequest o = false) (sent s) →
  Forall (λ o, isConfigurationRequest o = false) (sent (handle peer e s)).
Proof.
  intros He Hc Hs. destruct e; cbn [handle]; try done.
  - unfold onInitialized. rewrite Hc. simpl.
    destruct (hasWorkspaceFolderCapability s); simpl; [|done].
    apply Forall_app. split; [done|]. by repeat constructor.
  - rewrite onDidChangeConfiguration_global by done.
    destruct (settings change); simpl; [done|].
    apply Forall_app. split; [done|]. by repeat constructor.
  - unfold didChange. by destruct (documents s !! uri doc).
  - unfold didClose. by destruct (documents s !! textDocumentUri).
  - apply Forall_app. split; [done|]. by repeat constructor.
  - rewrite onDiagnostics_state.
    destruct (documents s !! textDocumentUri); [|done].
    by rewrite getDocumentSettings_fallback.
Qed.

Lemma run_uninitialized_quiet peer trace :
  forallb (λ e, negb (isInitialize e)) trace = true →
  Forall (λ o, isConfigurationRequest o = false)
    (sent (run peer trace initialServer)).
Proof.
  induction trace as [|e trace IH] using rev_ind; intros Hall.
  { constructor. }
  pose proof (run_uninitialized peer _ Hall) as _.
  rewrite forallb_app in Hall. apply andb_prop in Hall as [Htr He].
  simpl in He. rewrite andb_true_r in He. apply negb_true_iff in He.
  destruct (run_uninitialized peer trace Htr) as (Hc & _ & _).
  rewrite run_snoc. apply handle_quiet; [done..|]. by apply IH.
Qed.

(** One event keeps the store keyed by URI and the cache within the open
    documents. *)
Lemma handle_store peer e s :
  storeKeyed s →
  dom (documentSettings s) ⊆ dom (documents s) →
  storeKeyed (handle peer e s) ∧
  dom (documentSettings (handle peer e s))
  ⊆ dom (documents (handle peer e s)).
Proof.
  intros Hk Hd. destruct e; simpl; try done.
  - destruct (onInitialize_frame params s) as (Hds & _ & _ & Hdoc).
    simpl in Hds, Hdoc. unfold storeKeyed. by rewrite Hds, Hdoc.
  - destruct (onInitialized_frame s) as (Hds & Hdoc & _).
    unfold storeKeyed. by rewrite Hds, Hdoc.
  - unfold onDidChangeConfiguration.
    destruct (hasConfigurationCapability s); simpl.
    + split; [done|]. rewrite dom_empty_L. set_solver.
    + by destruct (settings change).
  - split.
    + intros u d. simpl. rewrite lookup_insert.
      case_decide; [by intros [= <-]|]. apply Hk.
    + simpl. rewrite dom_insert_L. set_solver.
  - unfold didChange. destruct (documents s !! uri doc) eqn:Hdoc; [|done].
    split.
    + intros u d. simpl. rewrite lookup_insert.
      case_decide; [by intros [= <-]|]. apply Hk.
    + simpl. rewrite dom_insert_L. set_solver.
  - unfold didClose.
    destruct (documents s !! textDocumentUri) as [d|] eqn:Hdoc; [|done].
    apply Hk in Hdoc as Huri. split.
    + intros u d'. simpl. intros [_ Hu]%lookup_delete_Some. by apply Hk.
    + simpl. rewrite Huri, !dom_delete_L. set_solver.
  - rewrite onDiagnostics_state.
    destruct (documents s !! textDocumentUri) as [d|] eqn:Hdoc; [|done].
    apply Hk in Hdoc as Huri. split.
    + unfold storeKeyed. by rewrite getDocumentSettings_documents.
    + rewrite getDocumentSettings_documents.
      pose proof (getDocumentSettings_dom (uri d) s) as Hdom.
      assert (uri d ∈ dom (documents s)).
      { apply elem_of_dom. rewrite Huri. eauto. }
      set_solver.
Qed.
End more_session.

(** X8. When the payload has no capabilities ([undefined] or [null]), the
    initialization handler fails on its first property read and leaves the
    session exactly as it was. *)
Theorem onInitialize_no_capabilities (caps : JsValue) (s : Server) :
  caps = JUndefined ∨ caps = JNull →
  onInitialize {| capabilities := caps |} s = (s, None).
Proof. by intros [-> | ->]. Qed.

Lemma onInitialize_no_capabilities_witness :
  (JNull = JUndefined ∨ JNull = JNull) ∧
  onInitialize {| capabilities := JNull |} pullingServer
    = (pullingServer, None).
Proof.
  split; [by right|].
  apply (onInitialize_no_capabilities JNull pullingServer). by right.
Defined.

(** X9. The initialization handler assigns the three flags and nothing
    else (settings, cache, documents and outbox are untouched, also when it
    fails), and what it assigns depends on the payload only: handling the
    same payload again changes nothing. *)
Theorem onInitialize_frame_idempotent (params : InitializeParams)
    (s : Server) :
  let r := onInitialize params s in
  globalSettings r.1 = globalSettings s ∧
  documentSettings r.1 = documentSettings s ∧
  documents r.1 = documents s ∧
  sent r.1 = sent s ∧
  onInitialize params r.1 = r.
Proof.
  cbv zeta. unfold onInitialize.
  destruct (configurationSupport _); [|done].
  destruct (workspaceFolderSupport _); [|done].
  by destruct (relatedInformationSupport _).
Qed.

(** X10. The handshake: after the initialization request and the
    initialized notification, the server has registered for configuration
    changes exactly when the peer announced configuration pull, then for
    workspace-folder changes exactly when the peer announced workspace
    folders, and has sent nothing else. *)
Theorem handshake_registrations (caps : JsValue) (s : Server) :
  caps ≠ JUndefined → caps ≠ JNull →
  let workspace := field caps "workspace" in
  sent (onInitialized (onInitialize {| capabilities := caps |} s).1) =
    sent s
    ++ (if truthy workspace && truthy (field workspace "configuration")
        then [RegisterDidChangeConfiguration] else [])
    ++ (if truthy workspace && truthy (field workspace "workspaceFolders")
        then [RegisterWorkspaceFoldersListener] else []).
Proof.
  intros Hu Hn. cbv zeta. unfold onInitialize. cbn [capabilities].
  destruct (configurationSupport_spec caps Hu Hn) as (v1 & -> & <-).
  destruct (workspaceFolderSupport_spec caps Hu Hn) as (v2 & -> & <-).
  destruct (relatedInformationSupport_spec caps Hu Hn) as (v3 & -> & _).
  unfold onInitialized. cbn [fst].
  cbn [setCapabilities hasConfigurationCapability
       hasWorkspaceFolderCapability].
  destruct (truthy v1), (truthy v2); simpl;
    by rewrite <- ?app_assoc, ?app_nil_r.
Qed.

Lemma handshake_registrations_witness :
  fullCapabilities ≠ JUndefined ∧ fullCapabilities ≠ JNull ∧
  sent (onInitialized
          (onInitialize {| capabilities := fullCapabilities |}
             initialServer).1) =
    [RegisterDidChangeConfiguration; RegisterWorkspaceFoldersListener].
Proof.
  assert (fullCapabilities ≠ JUndefined) as Hu by discriminate.
  assert (fullCapabilities ≠ JNull) as Hn by discriminate.
  split; [exact Hu|]. split; [exact Hn|].
  exact (handshake_registrations fullCapabilities initialServer Hu Hn).
Defined.

(** X11. With configuration pull, a configuration-change notification
    ignores its payload, keeps the global settings, asks the peer to
    refresh, and empties the cache for every URI: whatever was cached, the
    next lookup for any URI sends a new request and caches only that. *)
Theorem configuration_change_invalidates_all
    (change : DidChangeConfigurationParams) (u : jsstring) (s : Server) :
  hasConfigurationCapability s = true →
  let s' := onDidChangeConfiguration change s in
  let r := getDocumentSettings u s' in
  globalSettings s' = globalSettings s ∧
  documentSettings s' = ∅ ∧
  sent s' = sent s ++ [DiagnosticsRefresh] ∧
  r.1 = ConfigurationResponse (length (sent s) + 1) ∧
  sent r.2 =
    sent s ++ [DiagnosticsRefresh;
               ConfigurationRequest u (js "strudelLanguageServer")] ∧
  documentSettings r.2 = {[ u := r.1 ]}.
Proof.
  intros Hc. cbv zeta. rewrite onDidChangeConfiguration_pull by done.
  rewrite getDocumentSettings_miss by done.
  cbn [fst snd sent send setDocumentSettings globalSettings documentSettings].
  rewrite length_app, <- app_assoc. simpl. done.
Qed.

Lemma configuration_change_invalidates_all_witness :
  hasConfigurationCapability cachedServer = true ∧
  documentSettings (onDidChangeConfiguration sampleChange cachedServer) = ∅ ∧
  globalSettings (onDidChangeConfiguration sampleChange cachedServer) =
    globalSettings cachedServer.
Proof.
  assert (hasConfigurationCapability cachedServer = true) as Hc
    by reflexivity.
  destruct (configuration_change_invalidates_all sampleChange scenarioUri
              cachedServer Hc) as (Hg & He & _).
  split; [exact Hc|]. split; [exact He|exact Hg].
Defined.

(** X12. The close listener drops the cache entry of the closed document
    and of no other, and sends nothing; with configuration pull the next
    lookup for that document sends a new request. *)
Theorem onDidClose_invalidates_one (doc : TextDocument) (s : Server) :
  hasConfigurationCapability s = true →
  let s' := onDidClose doc s in
  let r := getDocumentSettings (uri doc) s' in
  documentSettings s' !! uri doc = None ∧
  (∀ u, u ≠ uri doc → documentSettings s' !! u = documentSettings s !! u) ∧
  sent s' = sent s ∧
  r.1 = ConfigurationResponse (length (sent s)) ∧
  sent r.2 =
    sent s ++ [ConfigurationRequest (uri doc) (js "strudelLanguageServer")].
Proof.
  intros Hc. cbv zeta.
  assert (documentSettings (onDidClose doc s) !! uri doc = None) as Hnone
    by apply lookup_delete_eq.
  rewrite getDocumentSettings_miss by done.
  split; [done|]. split; [|done].
  intros u Hu. by apply lookup_delete_ne.
Qed.

Lemma onDidClose_invalidates_one_witness :
  hasConfigurationCapability cachedServer = true ∧
  is_Some (documentSettings cachedServer !! scenarioUri) ∧
  documentSettings
    (onDidClose (scenarioDocument "let ABC = 1;") cachedServer)
    !! scenarioUri = None.
Proof.
  assert (hasConfigurationCapability cachedServer = true) as Hc
    by reflexivity.
  destruct (onDidClose_invalidates_one (scenarioDocument "let ABC = 1;")
              cachedServer Hc) as (Hnone & _).
  split; [exact Hc|]. split; [|exact Hnone].
  eexists. reflexivity.
Defined.

(** X13. A repeated settings lookup changes nothing further: the second
    call for a URI sends nothing and leaves the state as the first call
    left it, and with configuration pull on it returns the very promise
    that the first call returned.  A lookup never touches the cache entries
    of other URIs, the documents or the global settings. *)
Theorem getDocumentSettings_idempotent (u : jsstring) (s : Server) :
  let r := getDocumentSettings u s in
  (getDocumentSettings u r.2).2 = r.2 ∧
  (hasConfigurationCapability s = true →
   (getDocumentSettings u r.2).1 = r.1 ∧
   documentSettings r.2 !! u = Some r.1) ∧
  (∀ u', u' ≠ u → documentSettings r.2 !! u' = documentSettings s !! u') ∧
  documents r.2 = documents s ∧
  globalSettings r.2 = globalSettings s.
Proof.
  cbv zeta. destruct (hasConfigurationCapability s) eqn:Hc.
  - destruct (documentSettings s !! u) as [t|] eqn:Hu.
    + rewrite (getDocumentSettings_hit u s t Hc Hu). cbn [fst snd].
      rewrite (getDocumentSettings_hit u s t Hc Hu). cbn [fst snd].
      done.
    + rewrite (getDocumentSettings_miss u s Hc Hu). cbn [fst snd].
      erewrite getDocumentSettings_hit; [|done|apply lookup_insert_eq].
      cbn [fst snd].
      split; [done|].
      split; [intros _; split; [done|apply lookup_insert_eq]|].
      split; [|done]. intros u' Hne. simpl. by rewrite lookup_insert_ne.
  - rewrite (getDocumentSettings_fallback u s Hc). cbn [fst snd].
    rewrite (getDocumentSettings_fallback u s Hc). cbn [fst snd]. done.
Qed.

(** X14. A session whose peer did not announce configuration pull never
    sends a configuration request, whatever messages arrive. *)
Theorem no_pull_without_capability (s : Server) :
  reachable s →
  hasConfigurationCapability s = false →
  Forall (λ o, isConfigurationRequest o = false) (sent s).
Proof.
  intros (peer & trace & Honce & ->).
  induction trace as [|e trace IH] using rev_ind; [constructor|].
  apply initializedOnce_snoc in Honce as [Honce Hfirst].
  rewrite run_snoc. destruct (isInitialize e) eqn:He.
  - intros _. destruct e; try done. simpl.
    destruct (onInitialize_frame params (run peer trace initialServer))
      as (_ & -> & _).
    apply run_uninitialized_quiet. by apply Hfirst.
  - rewrite handle_flag by done. intros Hc.
    apply handle_quiet; [done..|]. by apply IH.
Qed.

Lemma no_pull_without_capability_witness :
  reachable fallbackSession ∧
  hasConfigurationCapability fallbackSession = false ∧
  Forall (λ o, isConfigurationRequest o = false) (sent fallbackSession).
Proof.
  assert (reachable fallbackSession) as Hr.
  { exists (λ _, Pending), fallbackTrace. split; [|reflexivity].
    unfold initializedOnce. simpl. lia. }
  assert (hasConfigurationCapability fallbackSession = false) as Hc
    by reflexivity.
  split; [exact Hr|]. split; [exact Hc|].
  exact (no_pull_without_capability fallbackSession Hr Hc).
Defined.

(** X15. Whatever messages arrive, settings are cached for open documents
    only: every URI with a cache entry is the URI of a document in the
    store, and every stored document is filed under its own URI. *)
Theorem cache_within_open_documents
    (peer : nat → Settled StrudelSettings) (trace : list Event) :
  let s := run peer trace initialServer in
  storeKeyed s ∧ dom (documentSettings s) ⊆ dom (documents s).
Proof.
  cbv zeta. induction trace as [|e trace IH] using rev_ind.
  { split; [by intros u doc ?|]. simpl. set_solver. }
  rewrite run_snoc. destruct IH as [Hk Hd]. by apply handle_store.
Qed.

(** X16. A rejected configuration answer stays in the cache: the
    diagnostics request that caused the lookup fails, and so does the next
    request for the document, without a new configuration request being
    sent. *)
Theorem rejected_settings_stay_cached
    (peer : nat → Settled StrudelSettings) (u : jsstring)
    (doc : TextDocument) (s : Server) :
  hasConfigurationCapability s = true →
  documents s !! u = Some doc →
  documentSettings s !! uri doc = None →
  peer (length (sent s)) = Rejected →
  let first := onDiagnostics peer u s in
  let second := onDiagnostics peer u first.2 in
  first.1 = Rejected ∧
  sent first.2 =
    sent s ++ [ConfigurationRequest (uri doc) (js "strudelLanguageServer")] ∧
  second.1 = Rejected ∧
  second.2 = first.2.
Proof.
  intros Hc Hdoc Hu Hpeer. cbv zeta.
  assert (onDiagnostics peer u s =
            (Rejected, (getDocumentSettings (uri doc) s).2)) as H1.
  { unfold onDiagnostics, validateTextDocument. rewrite Hdoc.
    rewrite (getDocumentSettings_miss _ _ Hc Hu). simpl. by rewrite Hpeer. }
  rewrite H1. cbn [fst snd].
  rewrite (getDocumentSettings_miss _ _ Hc Hu). cbn [snd].
  set (s1 := setDocumentSettings _ _).
  assert (documents s1 !! u = Some doc) as Hdoc1 by exact Hdoc.
  assert (hasConfigurationCapability s1 = true) as Hc1 by exact Hc.
  assert (documentSettings s1 !! uri doc
          = Some (ConfigurationResponse (length (sent s)))) as Hu1
    by apply lookup_insert_eq.
  split; [done|]. split; [done|].
  unfold onDiagnostics, validateTextDocument. rewrite Hdoc1.
  rewrite (getDocumentSettings_hit _ _ _ Hc1 Hu1). simpl. by rewrite Hpeer.
Qed.

Lemma rejected_settings_stay_cached_witness :
  hasConfigurationCapability openServer = true ∧
  (onDiagnostics rejectingPeer scenarioUri openServer).1 = Rejected ∧
  (onDiagnostics rejectingPeer scenarioUri
     (onDiagnostics rejectingPeer scenarioUri openServer).2).1 = Rejected ∧
  sent (onDiagnostics rejectingPeer scenarioUri
          (onDiagnostics rejectingPeer scenarioUri openServer).2).2 =
    [ConfigurationRequest scenarioUri (js "strudelLanguageServer")].
Proof.
  assert (hasConfigurationCapability openServer = true) as Hc
    by reflexivity.
  assert (documents openServer !! scenarioUri
          = Some (scenarioDocument "let ABC = 1;")) as Hdoc by reflexivity.
  assert (documentSettings openServer
            !! uri (scenarioDocument "let ABC = 1;") = None) as Hu
    by reflexivity.
  assert (rejectingPeer (length (sent openServer)) = Rejected) as Hp
    by reflexivity.
  destruct (rejected_settings_stay_cached rejectingPeer scenarioUri
              (scenarioDocument "let ABC = 1;") openServer Hc Hdoc Hu Hp)
    as (H1 & H2 & H3 & H4).
  split; [exact Hc|]. split; [exact H1|]. split; [exact H3|].
  rewrite H4. exact H2.
Defined.

(** X17. Without configuration pull a diagnostics request never fails,
    never waits for the peer and never changes the session: for every URI,
    open or not, it is answered at once with a full report. *)
Theorem diagnostics_without_pull
    (peer : nat → Settled StrudelSettings) (u : jsstring) (s : Server) :
  hasConfigurationCapability s = false →
  ∃ findings,
    onDiagnostics peer u s =
      (Fulfilled {| kind := Full; items := findings |}, s).
Proof.
  intros Hc. unfold onDiagnostics, validateTextDocument.
  destruct (documents s !! u) as [doc|]; [|by eexists].
  rewrite getDocumentSettings_fallback by done. cbn [await].
  rewrite validate_spec. by eexists.
Qed.

Lemma diagnostics_without_pull_witness :
  hasConfigurationCapability fallbackSession = false ∧
  ∃ findings,
    onDiagnostics rejectingPeer scenarioUri fallbackSession =
      (Fulfilled {| kind := Full; items := findings |}, fallbackSession).
Proof.
  split; [reflexivity|].
  apply (diagnostics_without_pull rejectingPeer scenarioUri fallbackSession).
  reflexivity.
Defined.



(** X19. Resolving a completion item changes at most its [detail] and
    [documentation]: every other property, present or absent, reads as
    before. *)
Theorem resolve_frame (item : CompletionItem) (k : string) :
  k ≠ "detail" → k ≠ "documentation" →
  onCompletionResolve item !! k = item !! k.
Proof.
  intros Hd Hdoc. unfold onCompletionResolve.
  repeat case_match; try done; by rewrite !lookup_insert_ne.
Qed.

Lemma resolve_frame_witness :
  "label" ≠ "detail" ∧ "label" ≠ "documentation" ∧
  onCompletionResolve typescriptItem !! "label" =
    Some (JString (js "TypeScript")).
Proof.
  assert ("label" ≠ "detail") as H1 by discriminate.
  assert ("label" ≠ "documentation") as H2 by discriminate.
  split; [exact H1|]. split; [exact H2|].
  rewrite (resolve_frame typescriptItem "label" H1 H2). reflexivity.
Defined.

(** X20. Resolving is idempotent: resolving a resolved item returns it
    unchanged. *)
Theorem resolve_idempotent (item : CompletionItem) :
  onCompletionResolve (onCompletionResolve item) = onCompletionResolve item.
Proof.
  assert (onCompletionResolve item !! "data" = item !! "data") as Hdata.
  { unfold onCompletionResolve.
    repeat case_match; try done; by rewrite !lookup_insert_ne. }
  unfold onCompletionResolve at 1. rewrite Hdata.
  unfold onCompletionResolve.
  repeat case_match; try done; subst;
    apply map_eq; intros k; rewrite !lookup_insert;
    repeat case_decide; done.
Qed.

(** X21. The global settings change only through a configuration-change
    notification, and never while configuration pull is on. *)
Theorem globalSettings_stable
    (peer : nat → Settled StrudelSettings) (e : Event) (s : Server) :
  hasConfigurationCapability s = true ∨ isDidChangeConfiguration e = false →
  globalSettings (handle peer e s) = globalSettings s.
Proof.
  intros Hor. destruct (isInitialize e) eqn:Hi.
  - destruct e; try done. simpl.
    by destruct (onInitialize_frame params s) as (_ & _ & -> & _).
  - destruct (isDidChangeConfiguration e) eqn:Hd.
    + destruct Hor as [Hc|]; [|done]. destruct e; try done. cbn [handle].
      by rewrite onDidChangeConfiguration_pull.
    + by apply handle_global.
Qed.

Lemma globalSettings_stable_witness :
  (hasConfigurationCapability cachedServer = true
   ∨ isDidChangeConfiguration (DidChangeConfiguration sampleChange) = false) ∧
  globalSettings
    (handle rejectingPeer (DidChangeConfiguration sampleChange) cachedServer)
    = defaultSettings.
Proof.
  split; [by left|].
  apply (globalSettings_stable rejectingPeer
           (DidChangeConfiguration sampleChange) cachedServer).
  by left.
Defined.

(** X22. Outside the initialization request no handler assigns a
    capability flag. *)
Theorem flags_assigned_by_initialize_only
    (peer : nat → Settled StrudelSettings) (e : Event) (s : Server) :
  isInitialize e = false →
  hasConfigurationCapability (handle peer e s) =
    hasConfigurationCapability s ∧
  hasWorkspaceFolderCapability (handle peer e s) =
    hasWorkspaceFolderCapability s ∧
  hasDiagnosticRelatedInformationCapability (handle peer e s) =
    hasDiagnosticRelatedInformationCapability s.
Proof.
  intros He. split; [by apply handle_flag|].
  destruct e; cbn [handle]; try done.
  - unfold onInitialized.
    destruct (hasConfigurationCapability s); simpl;
      destruct (hasWorkspaceFolderCapability s) eqn:Hw; simpl;
      by rewrite ?Hw.
  - unfold onDidChangeConfiguration.
    destruct (hasConfigurationCapability s); [done|].
    by destruct (settings change).
  - unfold didChange. by destruct (documents s !! uri doc).
  - unfold didClose. by destruct (documents s !! textDocumentUri).
  - rewrite onDiagnostics_state.
    destruct (documents s !! textDocumentUri) as [doc|]; [|done].
    unfold getDocumentSettings.
    destruct (hasConfigurationCapability s); simpl; [|done].
    by destruct (documentSettings s !! uri doc).
Qed.

Lemma flags_assigned_by_initialize_only_witness :
  isInitialize (DiagnosticsRequest scenarioUri) = false ∧
  hasConfigurationCapability
    (handle cappingPeer (DiagnosticsRequest scenarioUri) openServer) = true.
Proof.
  split; [reflexivity|].
  destruct (flags_assigned_by_initialize_only cappingPeer
              (DiagnosticsRequest scenarioUri) openServer eq_refl)
    as (Hc & _).
  rewrite Hc. reflexivity.
Defined.

Section more_extension.
Import extension.

Lemma lastStarted_snoc_Start (l : list Call) (c : LanguageClient) :
  lastStarted (l ++ [Start c]) = Some c.
Proof.
  induction l as [|[c'|c'] l IH]; simpl; [done|by rewrite IH|done].
Qed.

Lemma lastStarted_snoc_Stop (l : list Call) (c : LanguageClient) :
  lastStarted (l ++ [Stop c]) = lastStarted l.
Proof.
  induction l as [|[c'|c'] l IH]; simpl; [done|by rewrite IH|done].
Qed.
End more_extension.

(** X24. In the client extension, after any sequence of activations and
    deactivations, [deactivate] stops exactly the client that the most
    recent activation started, and does nothing (returning [undefined])
    when there was none. *)
Theorem deactivate_stops_last_started
    (sep : jsstring) (trace : list extension.Lifecycle) :
  let h := foldl (extension.step sep) extension.loaded trace in
  extension.client h = extension.lastStarted (extension.calls h) ∧
  (extension.deactivate h).1 = extension.lastStarted (extension.calls h) ∧
  extension.calls (extension.deactivate h).2 =
    extension.calls h
    ++ match extension.lastStarted (extension.calls h) with
       | Some c => [extension.Stop c]
       | None => []
       end.
Proof.
  cbv zeta.
  assert (extension.client (foldl (extension.step sep) extension.loaded trace)
          = extension.lastStarted
              (extension.calls
                 (foldl (extension.step sep) extension.loaded trace)))
    as Hinv.
  { induction trace as [|e trace IH] using rev_ind; [done|].
    rewrite foldl_app. simpl. destruct e as [ctx|]; simpl.
    - by rewrite lastStarted_snoc_Start.
    - unfold extension.deactivate.
      destruct (extension.client _) as [c|] eqn:Hc; simpl; [|by rewrite <- IH].
      by rewrite lastStarted_snoc_Stop. }
  split; [exact Hinv|]. unfold extension.deactivate. rewrite <- Hinv.
  destruct (extension.client _); simpl; [done|]. by rewrite app_nil_r.
Qed.

(** X25. In every state of a session, two documents never share a cached
    settings handle: a handle found under two URIs means the URIs are the
    same. *)
Theorem cached_handles_distinct (s : Server) (u1 u2 : jsstring)
    (t : Thenable) :
  reachable s →
  documentSettings s !! u1 = Some t →
  documentSettings s !! u2 = Some t →
  u1 = u2.
Proof.
  intros [_ Hpulls]%reachable_invariant H1 H2.
  destruct (Hpulls u1 t H1) as (n1 & -> & Hn1).
  destruct (Hpulls u2 _ H2) as (n2 & [= <-] & Hn2).
  congruence.
Qed.

Lemma cached_handles_distinct_witness :
  reachable sampleSession ∧
  documentSettings sampleSession !! scenarioUri
    = Some (ConfigurationResponse 1) ∧
  scenarioUri = scenarioUri.
Proof.
  assert (reachable sampleSession) as Hr.
  { exists (λ _, Pending), sampleTrace. split; [|reflexivity].
    unfold initializedOnce. simpl. lia. }
  assert (documentSettings sampleSession !! scenarioUri
          = Some (ConfigurationResponse 1)) as Hu by reflexivity.
  split; [exact Hr|]. split; [exact Hu|].
  exact (cached_handles_distinct sampleSession scenarioUri scenarioUri
           (ConfigurationResponse 1) Hr Hu Hu).
Defined.

(** X26. Without configuration pull, a configuration-change notification
    whose settings value is [undefined] or [null] raises in the handler at
    the property read: the session is left exactly as it was, so the global
    settings keep their old value and no refresh is sent. *)
Theorem configuration_change_without_settings (s : Server) :
  hasConfigurationCapability s = false →
  onDidChangeConfiguration {| settings := SettingsNullish |} s = s.
Proof. intros Hc. by rewrite onDidChangeConfiguration_global. Qed.

Lemma configuration_change_without_settings_witness :
  hasConfigurationCapability cappedServer = false ∧
  onDidChangeConfiguration {| settings := SettingsNullish |} cappedServer
    = cappedServer.
Proof.
  split; [reflexivity|].
  exact (configuration_change_without_settings cappedServer eq_refl).
Defined.
